(** * learn-typescript: the asynchronous demo and the module demo

    The repository holds two teaching snippets.

    - The asynchronous demo ([fetchUserData], [showUserDetails],
      [runParallelTasks], [main]) runs on the JavaScript event loop: promises,
      one-shot timers, [Promise.all] and [async]/[await].  It is embedded
      here over an explicit runtime state (promise store, timer queue,
      microtask queue, console, clock).  Closures that the runtime keeps for
      later (the timer callback, the code after each [await], the element
      handlers of [Promise.all]) are first-order values of the types
      [Callback] and [Cont], interpreted by [run_callback] and [run_cont].

    - The module demo ([add], [Calculator.multiply]) works on the [number]
      type, that is IEEE 754 binary64, which is the type [float] of the
      standard library. *)

From Stdlib Require Import ZArith QArith String Ascii List Lia Bool Floats DecimalString.
From stdpp Require Import base list.
Import ListNotations.

Set Warnings "-register-all".
Local Open Scope string_scope.
Local Open Scope list_scope.

(** ** Values *)

(** The object type [{ id: number; name: string }] that [fetchUserData]
    promises.  Identifiers are integers. *)
Record User := mkUser { id : Z; name : string }.

(** [new Error(message)]: the only error class the program constructs. *)
Inductive JsError := Error (message : string).

(** The JavaScript values that flow through promises and the console. *)
Inductive Value :=
| VUndefined
| VString (s : string)
| VUser (u : User)
| VError (e : JsError)
| VArray (elems : list Value).

(** A line on the console, with the arguments as passed. *)
Inductive Line :=
| ConsoleLog (args : list Value)
| ConsoleError (args : list Value).

(** Number-to-string conversion of a template literal, for an integer below
    10^21 in magnitude (decimal digits, a leading minus sign for negative
    numbers); from there on the language switches to exponent notation, which
    no statement below relies on. *)
Definition to_string (n : Z) : string := NilZero.string_of_int (Z.to_int n).

(** Property access [r.name]. *)
Definition prop_name (r : Value) : Value :=
  match r with
  | VUser u => VString (name u)
  | _ => VUndefined
  end.

(** [results.map(r => r.name)]. *)
Definition map_names (results : Value) : Value :=
  match results with
  | VArray rs => VArray (map prop_name rs)
  | _ => VUndefined
  end.

(** ** Runtime state *)

Definition pid := nat.

(** How a promise was settled. *)
Inductive Outcome :=
| Fulfilled (v : Value)
| Rejected (reason : Value).

(** The code that runs after an [await], or a [Promise.all] element handler.
    Each constructor carries what the closure captured. *)
Inductive Cont :=
| K_showUserDetails (self : pid)
| K_runParallelTasks (self : pid) (startTime : Z)
| K_main_after_show (self : pid)
| K_main_after_run (self : pid)
| K_all_element (agg : nat) (index : nat).

(** A promise is pending, with the reactions registered so far, or settled
    for good. *)
Inductive PState :=
| Pending (reactions : list Cont)
| Settled (o : Outcome).

(** The arrow function handed to [setTimeout] in [fetchUserData]; it captured
    [resolve]/[reject] of promise [p] and the identifier. *)
Inductive Callback :=
| CB_fetch (p : pid) (uid : Z).

Record Timer := mkTimer { due : Z; callback : Callback }.

(** The bookkeeping of one [Promise.all] call: the promise it returned, the
    array of values and the count of elements still outstanding. *)
Record Aggregate := mkAggregate {
  agg_promise : pid;
  agg_values : list Value;
  agg_remaining : nat
}.

Record State := mkState {
  promises : list PState;
  aggregates : list Aggregate;
  timers : list Timer;          (* sorted by due time, then by registration *)
  jobs : list (Cont * Outcome); (* microtask queue, first in first out *)
  console : list Line;          (* oldest line first *)
  clock : Z                     (* what Date.now() returns *)
}.

Definition initial : State := mkState [] [] [] [] [] 0.

Definition set_promises (f : list PState -> list PState) (s : State) : State :=
  mkState (f (promises s)) (aggregates s) (timers s) (jobs s) (console s) (clock s).
Definition set_aggregates (f : list Aggregate -> list Aggregate) (s : State) : State :=
  mkState (promises s) (f (aggregates s)) (timers s) (jobs s) (console s) (clock s).
Definition set_timers (f : list Timer -> list Timer) (s : State) : State :=
  mkState (promises s) (aggregates s) (f (timers s)) (jobs s) (console s) (clock s).
Definition set_jobs (f : list (Cont * Outcome) -> list (Cont * Outcome)) (s : State) : State :=
  mkState (promises s) (aggregates s) (timers s) (f (jobs s)) (console s) (clock s).
Definition set_console (f : list Line -> list Line) (s : State) : State :=
  mkState (promises s) (aggregates s) (timers s) (jobs s) (f (console s)) (clock s).
Definition set_clock (f : Z -> Z) (s : State) : State :=
  mkState (promises s) (aggregates s) (timers s) (jobs s) (console s) (f (clock s)).

(** ** A state monad for synchronous code *)

Definition M (A : Type) : Type := State -> A * State.

Definition ret {A} (a : A) : M A := fun s => (a, s).
Definition bind {A B} (m : M A) (k : A -> M B) : M B :=
  fun s => let (a, s') := m s in k a s'.
Definition modify (f : State -> State) : M unit := fun s => (tt, f s).
Definition gets {A} (f : State -> A) : M A := fun s => (f s, s).

Declare Scope js_scope.
Delimit Scope js_scope with js.
Notation "'let*' x ':=' m 'in' k" := (bind m (fun x => k))
  (at level 10, x name, m at level 100, k at level 200) : js_scope.
Notation "m ';;' k" := (bind m (fun _ => k))
  (at level 100, k at level 200, right associativity) : js_scope.
Local Open Scope js_scope.

(** ** Runtime primitives *)

Definition console_log (args : list Value) : M unit :=
  modify (set_console (fun c => c ++ [ConsoleLog args])).
Definition console_error (args : list Value) : M unit :=
  modify (set_console (fun c => c ++ [ConsoleError args])).

Definition Date_now : M Z := gets clock.

(** A fresh pending promise. *)
Definition new_promise : M pid :=
  fun s => (length (promises s), set_promises (fun ps => ps ++ [Pending []]) s).

Definition enqueue (js : list (Cont * Outcome)) : M unit :=
  modify (set_jobs (fun q => q ++ js)).

(** Settling: a pending promise takes the outcome and one job per registered
    reaction is queued; a settled promise ignores the call. *)
Definition settle (p : pid) (o : Outcome) : M unit :=
  fun s =>
    match promises s !! p with
    | Some (Pending rs) =>
        enqueue (map (fun k => (k, o)) rs) (set_promises <[p := Settled o]> s)
    | _ => (tt, s)
    end.

Definition resolve (p : pid) (v : Value) : M unit := settle p (Fulfilled v).
Definition reject (p : pid) (e : Value) : M unit := settle p (Rejected e).

(** Registering a reaction ([await p], or [p.then] inside [Promise.all]): kept
    with the promise while it is pending, queued at once if it is settled. *)
Definition subscribe (p : pid) (k : Cont) : M unit :=
  fun s =>
    match promises s !! p with
    | Some (Pending rs) => (tt, set_promises <[p := Pending (rs ++ [k])]> s)
    | Some (Settled o) => enqueue [(k, o)] s
    | None => (tt, s)
    end.

Fixpoint insert_timer (t : Timer) (q : list Timer) : list Timer :=
  match q with
  | [] => [t]
  | t' :: q' => if (due t <? due t')%Z then t :: q else t' :: insert_timer t q'
  end.

(** The delay that a timer really gets: a delay below 1 or above 2^31 - 1 is
    set to 1. *)
Definition timer_delay (delay : Z) : Z :=
  if ((delay <? 1) || (2147483647 <? delay))%Z then 1%Z else delay.

(** [setTimeout(cb, delay)].  Timers due at the same time run in the order of
    their registration. *)
Definition setTimeout (cb : Callback) (delay : Z) : M unit :=
  let* now := gets clock in
  modify (set_timers (insert_timer (mkTimer (now + timer_delay delay) cb))).

(** The bookkeeping of a new [Promise.all] call: no values yet, and a count
    that starts at one and is taken down again once every input promise has
    its handler. *)
Definition new_aggregate (result : pid) : M nat :=
  fun s => (length (aggregates s),
            set_aggregates (fun l => l ++ [mkAggregate result [] 1]) s).

Definition update_aggregate (a : nat) (f : Aggregate -> Aggregate) : M unit :=
  modify (set_aggregates (fun l =>
    match l !! a with Some g => <[a := f g]> l | None => l end)).

(** Decrements the outstanding count and fulfils the aggregate promise with
    the array of values when it reaches zero. *)
Definition element_done (a : nat) : M unit :=
  update_aggregate a (fun g =>
    mkAggregate (agg_promise g) (agg_values g) (pred (agg_remaining g))) ;;
  let* g := gets (fun s => aggregates s !! a) in
  match g with
  | Some g =>
      match agg_remaining g with
      | O => resolve (agg_promise g) (VArray (agg_values g))
      | S _ => ret tt
      end
  | None => ret tt
  end.

(** One element handler per input promise, each with its own index into the
    array of values. *)
Fixpoint all_subscribe (a : nat) (index : nat) (ps : list pid) : M unit :=
  match ps with
  | [] => ret tt
  | p :: ps' =>
      update_aggregate a (fun g =>
        mkAggregate (agg_promise g) (agg_values g ++ [VUndefined])
                    (S (agg_remaining g))) ;;
      subscribe p (K_all_element a index) ;;
      all_subscribe a (S index) ps'
  end.

(** [Promise.all(ps)]. *)
Definition Promise_all (ps : list pid) : M pid :=
  let* result := new_promise in
  let* a := new_aggregate result in
  all_subscribe a 0 ps ;;
  element_done a ;;
  ret result.

(** The element handlers of [Promise.all]: a fulfilled element stores its
    value at its own index; a rejected one rejects the aggregate promise. *)
Definition all_element (a index : nat) (o : Outcome) : M unit :=
  match o with
  | Fulfilled x =>
      update_aggregate a (fun g =>
        mkAggregate (agg_promise g) (<[index := x]> (agg_values g))
                    (agg_remaining g)) ;;
      element_done a
  | Rejected e =>
      let* g := gets (fun s => aggregates s !! a) in
      match g with
      | Some g => reject (agg_promise g) e
      | None => ret tt
      end
  end.

(** ** The asynchronous demo *)

(** The two literals that [fetchUserData] hard-codes, the [success] flag of
    the timer callback and the delay handed to [setTimeout], given per
    identifier, so that the [else] branch and other completion orders can be
    exercised.  [as_written] gives them the values in the source. *)
Record Scenario := mkScenario {
  success_of : Z -> bool;
  delay_of : Z -> Z
}.

Definition as_written : Scenario :=
  mkScenario (fun _ => true) (fun _ => 1500%Z).

Definition newline : string := String (ascii_of_nat 10) "".

(** The two template literals of the demo. *)
Definition request_text (uid : Z) : string :=
  ("正在请求用户数据 (ID: " ++ to_string uid ++ ")...")%string.
Definition elapsed_text (elapsed : Z) : string :=
  ("总耗时: " ++ to_string elapsed ++
   "ms (应该是 1500ms 左右，而不是 4500ms)")%string.

Section Demo.

Variable sc : Scenario.

(** The body of the timer callback of [fetchUserData]. *)
Definition fetch_timeout (p : pid) (uid : Z) : M unit :=
  let success := success_of sc uid in
  if success then
    resolve p (VUser {| id := uid; name := "Bruce Wayne" |})
  else
    reject p (VError (Error "用户不存在")).

(** [fetchUserData(id)]: the executor of [new Promise] runs at once; it logs
    the request and arms the timer. *)
Definition fetchUserData (uid : Z) : M pid :=
  let* p := new_promise in
  console_log [VString (request_text uid)] ;;
  setTimeout (CB_fetch p uid) (delay_of sc uid) ;;
  ret p.

(** [showUserDetails()], up to its [await]. *)
Definition showUserDetails : M pid :=
  let* self := new_promise in
  console_log [VString "--- 任务开始 ---"] ;;
  let* p := fetchUserData 1 in
  subscribe p (K_showUserDetails self) ;;
  ret self.

(** [showUserDetails()], from its [await] on: the rest of the [try] block
    when the awaited promise was fulfilled, the [catch] block when it was
    rejected; then the function returns normally. *)
Definition showUserDetails_resume (self : pid) (o : Outcome) : M unit :=
  match o with
  | Fulfilled user =>
      console_log [VString "获取成功:"; prop_name user] ;;
      console_log [VString "--- 任务结束 ---"]
  | Rejected error =>
      console_error [VString "捕获到错误:"; error]
  end ;;
  resolve self VUndefined.

(** [runParallelTasks()], up to its [await]. *)
Definition runParallelTasks : M pid :=
  let* self := new_promise in
  console_log [VString (newline ++ "--- 并发任务开始 ---")%string] ;;
  let* startTime := Date_now in
  let* p1 := fetchUserData 1 in
  let* p2 := fetchUserData 2 in
  let* p3 := fetchUserData 3 in
  let* all := Promise_all [p1; p2; p3] in
  subscribe all (K_runParallelTasks self startTime) ;;
  ret self.

(** [runParallelTasks()], from its [await] on. *)
Definition runParallelTasks_resume (self : pid) (startTime : Z) (o : Outcome)
  : M unit :=
  match o with
  | Fulfilled results =>
      console_log [VString "所有任务完成:"; map_names results] ;;
      let* now := Date_now in
      console_log [VString (elapsed_text (now - startTime))]
  | Rejected error =>
      console_error [VString "其中一个任务失败了:"; error]
  end ;;
  resolve self VUndefined.

(** [main()], up to its first [await]. *)
Definition main : M pid :=
  let* self := new_promise in
  let* p := showUserDetails in
  subscribe p (K_main_after_show self) ;;
  ret self.

(** [main()] between its two [await]s; there is no [try], so a rejection
    would reject the promise of [main]. *)
Definition main_after_show (self : pid) (o : Outcome) : M unit :=
  match o with
  | Fulfilled _ =>
      let* p := runParallelTasks in
      subscribe p (K_main_after_run self)
  | Rejected e => reject self e
  end.

(** [main()] after its second [await]. *)
Definition main_after_run (self : pid) (o : Outcome) : M unit :=
  match o with
  | Fulfilled _ => resolve self VUndefined
  | Rejected e => reject self e
  end.

(** ** The event loop *)

Definition run_cont (k : Cont) (o : Outcome) : M unit :=
  match k with
  | K_showUserDetails self => showUserDetails_resume self o
  | K_runParallelTasks self startTime => runParallelTasks_resume self startTime o
  | K_main_after_show self => main_after_show self o
  | K_main_after_run self => main_after_run self o
  | K_all_element a index => all_element a index o
  end.

Definition run_callback (cb : Callback) : M unit :=
  match cb with
  | CB_fetch p uid => fetch_timeout p uid
  end.

(** One turn: the oldest microtask if there is one; otherwise the timer that
    is due first, with the clock moved on to its due time.  [None] when
    nothing is left to run.  The clock is the time of the loop, which
    decides the order of the timers: running code takes no time on it, and
    it only moves while the loop waits for a timer.  A real clock reads a
    little more or less; no statement below depends on its reading. *)
Definition step (s : State) : option State :=
  match jobs s with
  | (k, o) :: rest => Some (snd (run_cont k o (set_jobs (fun _ => rest) s)))
  | [] =>
      match timers s with
      | t :: rest =>
          Some (snd (run_callback (callback t)
                       (set_clock (Z.max (due t))
                          (set_timers (fun _ => rest) s))))
      | [] => None
      end
  end.

(** Turns until nothing is left to run; [None] when the fuel runs out
    first. *)
Fixpoint run_loop (fuel : nat) (s : State) : option State :=
  match step s with
  | None => Some s
  | Some s' =>
      match fuel with
      | O => None
      | S fuel' => run_loop fuel' s'
      end
  end.

(** Exactly [n] turns; [None] when the loop comes to rest earlier. *)
Fixpoint turns (n : nat) (s : State) : option State :=
  match n with
  | O => Some s
  | S n' =>
      match step s with
      | Some s' => turns n' s'
      | None => None
      end
  end.

(** Runs the synchronous part of [prog] from the initial state, then the
    event loop. *)
Definition exec {A} (fuel : nat) (prog : M A) : option (A * State) :=
  let (a, s) := prog initial in
  match run_loop fuel s with
  | Some s' => Some (a, s')
  | None => None
  end.

End Demo.

(** What became of promise [p]. *)
Definition outcome_of (p : pid) (s : State) : option Outcome :=
  match promises s !! p with
  | Some (Settled o) => Some o
  | _ => None
  end.

(** [prog] runs to the end: its synchronous part returns [a], and the event
    loop then comes to rest in state [s']. *)
Definition completes {A} (sc : Scenario) (prog : M A) (a : A) (s' : State) : Prop :=
  exists fuel, exec sc fuel prog = Some (a, s').

(** ** Vocabulary of the statements *)

(** The record that a successful fetch of [uid] produces, and the error of a
    failed one. *)
Definition user_of (uid : Z) : Value :=
  VUser {| id := uid; name := "Bruce Wayne" |}.
Definition not_found : Value := VError (Error "用户不存在").

(** What a fetch of [uid] is settled with in scenario [sc]. *)
Definition expected (sc : Scenario) (uid : Z) : Outcome :=
  if success_of sc uid then Fulfilled (user_of uid) else Rejected not_found.

(** The three fetches of [runParallelTasks] all succeed. *)
Definition all_succeed (sc : Scenario) : bool :=
  success_of sc 1 && success_of sc 2 && success_of sc 3.

(** The longest of the three delays of [runParallelTasks], as [setTimeout]
    reads them. *)
Definition longest_delay (sc : Scenario) : Z :=
  Z.max (timer_delay (delay_of sc 1))
        (Z.max (timer_delay (delay_of sc 2)) (timer_delay (delay_of sc 3))).

(** Promise numbers inside a run of [runParallelTasks] from the initial
    state: the fetches of 1, 2 and 3, then the promise of [Promise.all]. *)
Definition fetch_promise (uid : nat) : pid := uid.
Definition all_promise : pid := 4.

(** A scenario in which the three fetches succeed and complete in the
    reverse of the order of the calls. *)
Definition reversed : Scenario :=
  mkScenario (fun _ => true) (fun uid => 400 * (4 - uid))%Z.

(** A scenario in which only the fetch of 2 fails, and does so last. *)
Definition second_fails : Scenario :=
  mkScenario (fun uid => negb (uid =? 2)%Z)
             (fun uid => if (uid =? 2)%Z then 2000 else 1500)%Z.

(** A scenario in which every fetch fails. *)
Definition all_fail : Scenario := mkScenario (fun _ => false) (fun _ => 1500%Z).

(** The first four lines that [runParallelTasks] writes. *)
Definition parallel_prologue : list Line :=
  [ConsoleLog [VString (newline ++ "--- 并发任务开始 ---")%string];
   ConsoleLog [VString (request_text 1)];
   ConsoleLog [VString (request_text 2)];
   ConsoleLog [VString (request_text 3)]].

(** ** Who may settle a promise *)

(** The promise that the code behind a continuation settles when it
    finishes.  The element handlers of [Promise.all] settle the promise of
    their aggregate instead. *)
Definition cont_self (k : Cont) : option pid :=
  match k with
  | K_showUserDetails self => Some self
  | K_runParallelTasks self _ => Some self
  | K_main_after_show self => Some self
  | K_main_after_run self => Some self
  | K_all_element _ _ => None
  end.

(** [k] does not settle [p]. *)
Definition foreign (p : pid) (k : Cont) : Prop := cont_self k <> Some p.

(** No reaction waiting on this promise settles [p]. *)
Definition clean (p : pid) (st : PState) : Prop :=
  match st with
  | Pending rs => Forall (foreign p) rs
  | Settled _ => True
  end.

(** A timer callback that settles [p] is the one of the fetch of [uid]. *)
Definition own_callback (p : pid) (uid : Z) (cb : Callback) : Prop :=
  match cb with
  | CB_fetch q u => q = p -> u = uid
  end.

Definition own_state (sc : Scenario) (uid : Z) (st : option PState) : Prop :=
  match st with
  | Some (Pending _) => True
  | Some (Settled o) => o = expected sc uid
  | None => False
  end.

(** Promise [p] belongs to a fetch of [uid]: it is pending or settled the
    way that fetch settles it, and nothing in the runtime state can settle it
    but the timer callback of that fetch. *)
Record owned (sc : Scenario) (p : pid) (uid : Z) (s : State) : Prop := mk_owned {
  owned_state : own_state sc uid (promises s !! p);
  owned_promises : Forall (clean p) (promises s);
  owned_jobs : Forall (fun j => foreign p (fst j)) (jobs s);
  owned_aggregates : Forall (fun g => agg_promise g <> p) (aggregates s);
  owned_timers : Forall (fun t => own_callback p uid (callback t)) (timers s)
}.

(** The number of the next promise is not in use anywhere in the state: a
    call can be made here. *)
Definition fresh (s : State) : Prop :=
  let p := length (promises s) in
  Forall (clean p) (promises s) /\
  Forall (fun j => foreign p (fst j)) (jobs s) /\
  Forall (fun g => agg_promise g <> p) (aggregates s) /\
  Forall (fun t => match callback t with CB_fetch q _ => q <> p end) (timers s).

(** Synchronous code [m] keeps the invariant [I], and what it returns
    satisfies [Q]. *)
Definition preserves {A} (I : State -> Prop) (m : M A) (Q : A -> Prop) : Prop :=
  forall s, I s -> I (snd (m s)) /\ Q (fst (m s)).

(** ** Well-formed runtime states *)

(** Every promise number that the state mentions is below [L]. *)
Definition cont_below (L : nat) (k : Cont) : Prop :=
  match cont_self k with
  | Some q => q < L
  | None => True
  end.

Definition state_below (L : nat) (st : PState) : Prop :=
  match st with
  | Pending rs => Forall (cont_below L) rs
  | Settled _ => True
  end.

Definition callback_below (L : nat) (cb : Callback) : Prop :=
  match cb with
  | CB_fetch q _ => q < L
  end.

Record bounded_by (L : nat) (s : State) : Prop := mk_bounded {
  bounded_promises : Forall (state_below L) (promises s);
  bounded_jobs : Forall (fun j => cont_below L (fst j)) (jobs s);
  bounded_aggregates : Forall (fun g => agg_promise g < L) (aggregates s);
  bounded_timers : Forall (fun t => callback_below L (callback t)) (timers s)
}.

(** The state mentions allocated promises only. *)
Definition bounded (s : State) : Prop := bounded_by (length (promises s)) s.

(** The state is bounded, and so are the promise numbers [X] that the
    running code holds in its variables. *)
Definition known (X : list pid) (s : State) : Prop :=
  bounded s /\ Forall (fun q => q < length (promises s)) X.

(** Synchronous code [m], started in a state that satisfies [P], returns a
    value and a state that satisfy [Q]. *)
Definition triple {A} (P : State -> Prop) (m : M A) (Q : A -> State -> Prop) : Prop :=
  forall s, P s -> Q (fst (m s)) (snd (m s)).

(** The state is well formed with the promises [X] in the hands of the
    running code, and [L] is the number of the next promise. *)
Definition allocated (L : nat) (X : list pid) (s : State) : Prop :=
  known X s /\ length (promises s) = L.

(** ** Vocabulary of further statements *)

(** What [showUserDetails] writes, by the branch of its fetch. *)
Definition sequential_console (sc : Scenario) : list Line :=
  [ConsoleLog [VString "--- 任务开始 ---"];
   ConsoleLog [VString "正在请求用户数据 (ID: 1)..."]] ++
  (if success_of sc 1
   then [ConsoleLog [VString "获取成功:"; VString "Bruce Wayne"];
         ConsoleLog [VString "--- 任务结束 ---"]]
   else [ConsoleError [VString "捕获到错误:"; not_found]]).

(** The lines of the form that [runParallelTasks] writes in scenario [sc],
    letter by letter, whatever the number of the elapsed time. *)
Definition parallel_lines (sc : Scenario) (lines : list Line) : Prop :=
  exists elapsed : Z,
    lines =
      [ConsoleLog [VString (String "010" "--- 并发任务开始 ---")];
       ConsoleLog [VString "正在请求用户数据 (ID: 1)..."];
       ConsoleLog [VString "正在请求用户数据 (ID: 2)..."];
       ConsoleLog [VString "正在请求用户数据 (ID: 3)..."]] ++
      (if all_succeed sc
       then [ConsoleLog [VString "所有任务完成:";
                         VArray [VString "Bruce Wayne"; VString "Bruce Wayne";
                                 VString "Bruce Wayne"]];
             ConsoleLog [VString ("总耗时: " ++
                                  NilZero.string_of_int (Z.to_int elapsed) ++
                                  "ms (应该是 1500ms 左右，而不是 4500ms)")%string]]
       else [ConsoleError [VString "其中一个任务失败了:";
                           VError (Error "用户不存在")]]).

(** A scenario in which only the fetch of 3 fails, and does so first. *)
Definition third_fails_first : Scenario :=
  mkScenario (fun uid => negb (uid =? 3)%Z) (fun uid => 400 * (4 - uid))%Z.

(** The run of [main] as written, one turn after its start: the fetch of
    [showUserDetails] has completed, the rest is still to come. *)
Definition main_after_one_turn : State :=
  default initial (turns as_written 1 (snd (main as_written initial))).

(** The same run after two turns: [showUserDetails] has returned, and [main]
    is about to go on. *)
Definition main_after_two_turns : State :=
  default initial (turns as_written 2 (snd (main as_written initial))).

(** The same run after three turns: [runParallelTasks] has just made its
    three calls. *)
Definition main_after_three_turns : State :=
  default initial (turns as_written 3 (snd (main as_written initial))).

(** ** What a run never undoes *)

(** From [s] to [s']: promises that were settled are settled the same way,
    the console has only grown at its end, and the clock has not gone
    back. *)
Record advances (s s' : State) : Prop := mk_advances {
  adv_settled :
    forall p o, outcome_of p s = Some o -> outcome_of p s' = Some o;
  adv_console : exists more, console s' = console s ++ more;
  adv_clock : (clock s <= clock s')%Z
}.

(** Synchronous code [m] only advances the state. *)
Definition steady {A} (m : M A) : Prop := forall s, advances s (snd (m s)).

(** ** The module demo *)

Module Utils.

(** [export function add(a: number, b: number): number] *)
Definition add (a b : float) : float := (a + b)%float.

(** [export default class Calculator]: no fields, one method, which does not
    use [this]. *)
Inductive Calculator : Set := new_Calculator.

Definition multiply (this : Calculator) (a b : float) : float := (a * b)%float.

End Utils.

(** The rational number that a finite [number] stands for; [None] for NaN
    and the infinities. *)
Definition exact_value (x : float) : option Q :=
  match Prim2SF x with
  | S754_zero _ => Some 0%Q
  | S754_finite sign m e =>
      Some ((if sign then -1 else 1) * inject_Z (Zpos m) * Qpower 2 e)%Q
  | _ => None
  end.

(** [x] stands for exactly the rational [q]. *)
Definition stands_for (x : float) (q : Q) : Prop :=
  match exact_value x with
  | Some v => (v == q)%Q
  | None => False
  end.

(** The second file of the module demo, which imports [Utils]. *)
Module ModulesDemo.

(** [const op: Operation = (x, y) => x / y] *)
Definition op (x y : float) : float := (x / y)%float.

End ModulesDemo.

(** * Properties *)

(** Full evaluation of a run, leaving arithmetic on times and the two
    template literals alone. *)
Ltac crunch :=
  lazy -[Z.ltb Z.max Z.add Z.sub timer_delay elapsed_text request_text].

(** The same with the event loop left alone, to evaluate the synchronous
    part of a program, and then the loop one turn at a time. *)
Ltac sync :=
  lazy -[run_loop Z.ltb Z.max Z.add Z.sub timer_delay elapsed_text
         request_text].

Lemma timer_delay_pos delay : (1 <= timer_delay delay)%Z.
Proof.
  unfold timer_delay.
  destruct (Z.ltb_spec delay 1), (Z.ltb_spec 2147483647 delay); cbn; lia.
Qed.

Lemma run_loop_turn sc fuel s :
  run_loop sc (S fuel) s =
  match step sc s with
  | Some s' => run_loop sc fuel s'
  | None => Some s
  end.
Proof. reflexivity. Qed.

Ltac use_flags :=
  repeat match goal with
  | E : ?f ?i = _ |- context [?f ?i] => rewrite E
  end.

Ltac turn := rewrite run_loop_turn; sync; use_flags; sync.
Ltac last_turn := unfold run_loop; crunch.

(** ** Fuel *)

(** Once the loop has come to rest, more fuel changes nothing. *)
Lemma run_loop_more_fuel sc fuel s s' :
  run_loop sc fuel s = Some s' ->
  forall extra, run_loop sc (fuel + extra) s = Some s'.
Proof.
  revert s. induction fuel as [|fuel IH]; intros s Hrun extra.
  - cbn in Hrun. destruct extra as [|extra]; cbn; destruct (step sc s); congruence.
  - cbn in Hrun |- *. destruct (step sc s) as [s1|]; [apply IH | ]; assumption.
Qed.

Lemma exec_more_fuel {A} sc fuel (prog : M A) r :
  exec sc fuel prog = Some r ->
  forall extra, exec sc (fuel + extra) prog = Some r.
Proof.
  unfold exec. destruct (prog initial) as [a s].
  destruct (run_loop sc fuel s) as [s'|] eqn:Hrun; [|discriminate].
  intros Hr extra. now rewrite (run_loop_more_fuel _ _ _ _ Hrun).
Qed.

(** A program comes to rest in one way only. *)
Lemma completes_unique {A} sc (prog : M A) a1 s1 a2 s2 :
  completes sc prog a1 s1 -> completes sc prog a2 s2 -> a1 = a2 /\ s1 = s2.
Proof.
  intros [f1 H1] [f2 H2].
  apply exec_more_fuel with (extra := f2) in H1.
  apply exec_more_fuel with (extra := f1) in H2.
  rewrite (Nat.add_comm f2 f1) in H2. rewrite H1 in H2.
  injection H2; auto.
Qed.

(** ** Promises *)

(** A settled promise stays as it is: settling it again changes nothing. *)
Lemma settle_settled p o o' s :
  outcome_of p s = Some o -> settle p o' s = (tt, s).
Proof.
  unfold outcome_of, settle.
  destruct (promises s !! p) as [[rs|o0]|]; [discriminate | reflexivity | discriminate].
Qed.

(** ** A single fetch *)

(** What one call of [fetchUserData] comes to, whatever the scenario: the
    branch of the timer callback decides the outcome. *)
Lemma fetchUserData_run sc uid :
  exists s',
    exec sc 1 (fetchUserData sc uid) = Some (0, s') /\
    outcome_of 0 s' =
      Some (if success_of sc uid
            then Fulfilled (VUser {| id := uid; name := "Bruce Wayne" |})
            else Rejected (VError (Error "用户不存在"))) /\
    console s' = [ConsoleLog [VString (request_text uid)]].
Proof.
  unfold exec. destruct sc as [succ del].
  destruct (succ uid) eqn:E; crunch; rewrite E; crunch; eexists; repeat split.
Qed.

(** C1: whenever [fetchUserData(id)] takes its success branch, the promise it
    returned is fulfilled with a record whose [id] field is the argument. *)
Theorem fetchUserData_keeps_id (sc : Scenario) (uid : Z) :
  success_of sc uid = true ->
  exists p s' u,
    completes sc (fetchUserData sc uid) p s' /\
    outcome_of p s' = Some (Fulfilled (VUser u)) /\
    id u = uid.
Proof.
  intros Hok. destruct (fetchUserData_run sc uid) as (s' & Hrun & Hout & _).
  rewrite Hok in Hout.
  exists 0, s', {| id := uid; name := "Bruce Wayne" |}.
  split; [exists 1; exact Hrun | split; [exact Hout | reflexivity]].
Qed.

Lemma fetchUserData_keeps_id_witness :
  exists p s' u,
    completes as_written (fetchUserData as_written 42) p s' /\
    outcome_of p s' = Some (Fulfilled (VUser u)) /\
    id u = 42%Z.
Proof. apply (fetchUserData_keeps_id as_written 42). reflexivity. Defined.

(** C2: as the source is written, [fetchUserData(id)] is fulfilled for every
    identifier, with the name "Bruce Wayne"; the branch that rejects is not
    taken. *)
Theorem fetchUserData_as_written (uid : Z) :
  success_of as_written uid = true /\
  exists p s',
    completes as_written (fetchUserData as_written uid) p s' /\
    outcome_of p s' =
      Some (Fulfilled (VUser {| id := uid; name := "Bruce Wayne" |})).
Proof.
  split; [reflexivity|].
  destruct (fetchUserData_run as_written uid) as (s' & Hrun & Hout & _).
  exists 0, s'. split; [exists 1; exact Hrun | exact Hout].
Qed.

(** C6: whenever [fetchUserData(id)] takes its failure branch, the promise is
    rejected with an [Error] whose message is the same fixed text for every
    identifier. *)
Theorem fetchUserData_failure (sc : Scenario) (uid : Z) :
  success_of sc uid = false ->
  exists p s',
    completes sc (fetchUserData sc uid) p s' /\
    outcome_of p s' = Some (Rejected (VError (Error "用户不存在"))).
Proof.
  intros Hko. destruct (fetchUserData_run sc uid) as (s' & Hrun & Hout & _).
  rewrite Hko in Hout.
  exists 0, s'. split; [exists 1; exact Hrun | exact Hout].
Qed.

Lemma fetchUserData_failure_witness :
  exists p s',
    completes all_fail (fetchUserData all_fail 7) p s' /\
    outcome_of p s' = Some (Rejected (VError (Error "用户不存在"))).
Proof. apply (fetchUserData_failure all_fail 7). reflexivity. Defined.

(** ** The sequential task *)

(** C5: [showUserDetails()] always ends with its own promise fulfilled, so
    nothing is thrown at the caller who awaits it.  When the fetch succeeded
    the name is logged, when it failed the error is logged by the [catch]
    block, and that is the end of the error. *)
Theorem showUserDetails_recovers (sc : Scenario) :
  exists p s',
    completes sc (showUserDetails sc) p s' /\
    outcome_of p s' = Some (Fulfilled VUndefined) /\
    console s' =
      [ConsoleLog [VString "--- 任务开始 ---"];
       ConsoleLog [VString (request_text 1)]] ++
      (if success_of sc 1
       then [ConsoleLog [VString "获取成功:"; VString "Bruce Wayne"];
             ConsoleLog [VString "--- 任务结束 ---"]]
       else [ConsoleError [VString "捕获到错误:";
                           VError (Error "用户不存在")]]).
Proof.
  assert (exists s', exec sc 2 (showUserDetails sc) = Some (0, s') /\
            outcome_of 0 s' = Some (Fulfilled VUndefined) /\
            console s' = [ConsoleLog [VString "--- 任务开始 ---"];
                          ConsoleLog [VString (request_text 1)]] ++
              (if success_of sc 1
               then [ConsoleLog [VString "获取成功:"; VString "Bruce Wayne"];
                     ConsoleLog [VString "--- 任务结束 ---"]]
               else [ConsoleError [VString "捕获到错误:";
                                   VError (Error "用户不存在")]]))
    as (s' & Hrun & Hout & Hcon).
  { unfold exec. destruct sc as [succ del].
    destruct (succ 1%Z) eqn:E; crunch; rewrite E; crunch; eexists; repeat split. }
  exists 0, s'. split; [exists 2; exact Hrun | split; assumption].
Qed.

(** ** The concurrent task *)

(** What a run of [runParallelTasks] comes to in every scenario: by cases on
    the order in which the three timers are due and on the three branches. *)
Lemma runParallelTasks_run sc :
  exists s',
    exec sc 7 (runParallelTasks sc) = Some (0, s') /\
    outcome_of 0 s' = Some (Fulfilled VUndefined) /\
    outcome_of all_promise s' =
      Some (if all_succeed sc
            then Fulfilled (VArray [user_of 1; user_of 2; user_of 3])
            else Rejected not_found) /\
    console s' =
      parallel_prologue ++
      (if all_succeed sc
       then [ConsoleLog [VString "所有任务完成:";
                         VArray [VString "Bruce Wayne"; VString "Bruce Wayne";
                                 VString "Bruce Wayne"]];
             ConsoleLog [VString (elapsed_text (longest_delay sc))]]
       else [ConsoleError [VString "其中一个任务失败了:"; not_found]]).
Proof.
  unfold exec, all_succeed, longest_delay, all_promise.
  destruct sc as [succ del]. cbn [success_of delay_of].
  destruct (succ 1%Z) eqn:E1, (succ 2%Z) eqn:E2, (succ 3%Z) eqn:E3.
  all: sync.
  all: repeat (match goal with
       | |- context [if (?a <? ?b)%Z then _ else _] =>
           destruct (Z.ltb_spec a b)
       end; sync).
  all: do 7 turn; last_turn.
  all: eexists; do 3 (split; [reflexivity|]); crunch.
  all: try reflexivity.
  all: pose proof (timer_delay_pos (del 1%Z));
       pose proof (timer_delay_pos (del 2%Z));
       pose proof (timer_delay_pos (del 3%Z)).
  all: repeat f_equal; lia.
Qed.

(** In [reversed] the fetch of 3 is the first to complete: after the first
    turn of the loop its promise is fulfilled while the other two are still
    pending. *)
Example reversed_completes_backwards :
  exists s1,
    turns reversed 1 (snd (runParallelTasks reversed initial)) = Some s1 /\
    outcome_of (fetch_promise 3) s1 = Some (Fulfilled (user_of 3)) /\
    outcome_of (fetch_promise 2) s1 = None /\
    outcome_of (fetch_promise 1) s1 = None.
Proof. eexists. repeat split; vm_compute; reflexivity. Qed.

(** C3: when the three fetches succeed, whatever their delays and hence
    whatever the order in which they complete, [Promise.all] is fulfilled with
    the records of 1, 2 and 3 in the order of the calls, and the console
    shows, after the start marker and the three request notices, the list of
    the three names and then the elapsed time. *)
Theorem runParallelTasks_names_in_call_order (sc : Scenario) :
  all_succeed sc = true ->
  exists p s' elapsed,
    completes sc (runParallelTasks sc) p s' /\
    outcome_of all_promise s' =
      Some (Fulfilled (VArray [VUser {| id := 1; name := "Bruce Wayne" |};
                               VUser {| id := 2; name := "Bruce Wayne" |};
                               VUser {| id := 3; name := "Bruce Wayne" |}])) /\
    console s' =
      [ConsoleLog [VString (String "010" "--- 并发任务开始 ---")];
       ConsoleLog [VString "正在请求用户数据 (ID: 1)..."];
       ConsoleLog [VString "正在请求用户数据 (ID: 2)..."];
       ConsoleLog [VString "正在请求用户数据 (ID: 3)..."];
       ConsoleLog [VString "所有任务完成:";
                   VArray [VString "Bruce Wayne"; VString "Bruce Wayne";
                           VString "Bruce Wayne"]];
       ConsoleLog [VString ("总耗时: " ++
                            NilZero.string_of_int (Z.to_int elapsed) ++
                            "ms (应该是 1500ms 左右，而不是 4500ms)")%string]].
Proof.
  intros Hall.
  destruct (runParallelTasks_run sc) as (s' & Hrun & _ & Hagg & Hcon).
  rewrite Hall in Hagg, Hcon.
  exists 0, s', (longest_delay sc).
  split; [exists 7; exact Hrun | split; [exact Hagg | exact Hcon]].
Qed.

Lemma runParallelTasks_names_in_call_order_witness :
  exists p s' elapsed,
    completes reversed (runParallelTasks reversed) p s' /\
    outcome_of all_promise s' =
      Some (Fulfilled (VArray [VUser {| id := 1; name := "Bruce Wayne" |};
                               VUser {| id := 2; name := "Bruce Wayne" |};
                               VUser {| id := 3; name := "Bruce Wayne" |}])) /\
    console s' =
      [ConsoleLog [VString (String "010" "--- 并发任务开始 ---")];
       ConsoleLog [VString "正在请求用户数据 (ID: 1)..."];
       ConsoleLog [VString "正在请求用户数据 (ID: 2)..."];
       ConsoleLog [VString "正在请求用户数据 (ID: 3)..."];
       ConsoleLog [VString "所有任务完成:";
                   VArray [VString "Bruce Wayne"; VString "Bruce Wayne";
                           VString "Bruce Wayne"]];
       ConsoleLog [VString ("总耗时: " ++
                            NilZero.string_of_int (Z.to_int elapsed) ++
                            "ms (应该是 1500ms 左右，而不是 4500ms)")%string]].
Proof. apply (runParallelTasks_names_in_call_order reversed). reflexivity. Defined.

(** C4: when one of the three fetches fails, [Promise.all] is rejected with
    the error of the failed fetch, the [catch] block logs that error, and no
    list of names is logged: what the other fetches produced is dropped. *)
Theorem runParallelTasks_fails_as_a_whole (sc : Scenario) :
  success_of sc 1 = false \/ success_of sc 2 = false \/ success_of sc 3 = false ->
  exists p s',
    completes sc (runParallelTasks sc) p s' /\
    outcome_of all_promise s' = Some (Rejected not_found) /\
    console s' =
      parallel_prologue ++
      [ConsoleError [VString "其中一个任务失败了:"; not_found]].
Proof.
  intros Hsome.
  assert (Hall : all_succeed sc = false).
  { unfold all_succeed.
    destruct Hsome as [H | [H | H]]; rewrite H;
      rewrite ?andb_false_r; reflexivity. }
  destruct (runParallelTasks_run sc) as (s' & Hrun & _ & Hagg & Hcon).
  rewrite Hall in Hagg, Hcon.
  exists 0, s'. split; [exists 7; exact Hrun | split; assumption].
Qed.

Lemma runParallelTasks_fails_as_a_whole_witness :
  exists p s',
    completes second_fails (runParallelTasks second_fails) p s' /\
    outcome_of all_promise s' = Some (Rejected not_found) /\
    console s' =
      parallel_prologue ++
      [ConsoleError [VString "其中一个任务失败了:"; not_found]].
Proof.
  apply (runParallelTasks_fails_as_a_whole second_fails).
  right; left; reflexivity.
Defined.

(** ** The whole program *)

(** C7: one run of [main] as the source is written.  The console holds, in
    this order: the start marker of the sequential task, the request notice
    for 1, the result, the end marker; the start marker of the concurrent
    task, the request notices for 1, 2 and 3, the list of names, the elapsed
    time.  The concurrent task is started by the third turn of the loop, and
    that single turn writes the three notices and arms the three timers, in
    the order of the calls, before any of the three promises is settled: the
    three fetches are under way before [runParallelTasks] is suspended. *)
Theorem main_trace :
  exists p s' elapsed,
    completes as_written (main as_written) p s' /\
    console s' =
      [ConsoleLog [VString "--- 任务开始 ---"];
       ConsoleLog [VString "正在请求用户数据 (ID: 1)..."];
       ConsoleLog [VString "获取成功:"; VString "Bruce Wayne"];
       ConsoleLog [VString "--- 任务结束 ---"];
       ConsoleLog [VString (String "010" "--- 并发任务开始 ---")];
       ConsoleLog [VString "正在请求用户数据 (ID: 1)..."];
       ConsoleLog [VString "正在请求用户数据 (ID: 2)..."];
       ConsoleLog [VString "正在请求用户数据 (ID: 3)..."];
       ConsoleLog [VString "所有任务完成:";
                   VArray [VString "Bruce Wayne"; VString "Bruce Wayne";
                           VString "Bruce Wayne"]];
       ConsoleLog [VString ("总耗时: " ++
                            NilZero.string_of_int (Z.to_int elapsed) ++
                            "ms (应该是 1500ms 左右，而不是 4500ms)")%string]] /\
    exists s2 s3,
      turns as_written 2 (snd (main as_written initial)) = Some s2 /\
      step as_written s2 = Some s3 /\
      console s2 =
        [ConsoleLog [VString "--- 任务开始 ---"];
         ConsoleLog [VString "正在请求用户数据 (ID: 1)..."];
         ConsoleLog [VString "获取成功:"; VString "Bruce Wayne"];
         ConsoleLog [VString "--- 任务结束 ---"]] /\
      timers s2 = [] /\
      console s3 =
        [ConsoleLog [VString "--- 任务开始 ---"];
         ConsoleLog [VString "正在请求用户数据 (ID: 1)..."];
         ConsoleLog [VString "获取成功:"; VString "Bruce Wayne"];
         ConsoleLog [VString "--- 任务结束 ---"];
         ConsoleLog [VString (String "010" "--- 并发任务开始 ---")];
         ConsoleLog [VString "正在请求用户数据 (ID: 1)..."];
         ConsoleLog [VString "正在请求用户数据 (ID: 2)..."];
         ConsoleLog [VString "正在请求用户数据 (ID: 3)..."]] /\
      map callback (timers s3) = [CB_fetch 4 1; CB_fetch 5 2; CB_fetch 6 3] /\
      outcome_of 4 s3 = None /\
      outcome_of 5 s3 = None /\
      outcome_of 6 s3 = None.
Proof.
  exists 0. eexists. exists 1500%Z.
  split; [exists 11; vm_compute; reflexivity|].
  split; [vm_compute; reflexivity|].
  eexists. eexists.
  split; [vm_compute; reflexivity|].
  split; [vm_compute; reflexivity|].
  repeat split; vm_compute; reflexivity.
Qed.

(** ** The module demo *)

(** Addition of [number]s is commutative: the IEEE 754 sum of the standard
    library's specification is symmetric in its arguments. *)
Lemma SF64add_comm (x y : spec_float) : SF64add x y = SF64add y x.
Proof.
  unfold SF64add, SFadd.
  destruct x as [sx|sx| |sx mx ex], y as [sy|sy| |sy my ey]; try reflexivity.
  - destruct sx, sy; reflexivity.
  - destruct sx, sy; reflexivity.
  - rewrite (Z.min_comm ey ex), Z.add_comm. reflexivity.
Qed.

(** C10, as the code has it: [add(a, b)] is the binary64 sum of its
    arguments, the one that [+] computes on [number]s, and is commutative;
    [multiply(a, b)] is their binary64 product.  Both are functions of their
    arguments alone. *)
Theorem add_multiply_binary64 (calc : Utils.Calculator) (a b : float) :
  Prim2SF (Utils.add a b) = SF64add (Prim2SF a) (Prim2SF b) /\
  Utils.add a b = Utils.add b a /\
  Prim2SF (Utils.multiply calc a b) = SF64mul (Prim2SF a) (Prim2SF b).
Proof.
  unfold Utils.add, Utils.multiply. split; [apply add_spec|].
  split; [|apply mul_spec].
  rewrite <- (SF2Prim_Prim2SF (a + b)), <- (SF2Prim_Prim2SF (b + a)).
  rewrite !add_spec. f_equal. apply SF64add_comm.
Qed.

(** C10, as stated, fails: 2^53 and 1 are [number]s, and [add] of them is
    2^53, not 2^53 + 1; 2^27 + 1 is a [number], and [multiply] of it with
    itself is one less than its square. *)
Lemma add_multiply_not_exact :
  (stands_for 9007199254740992 9007199254740992 /\
   stands_for 1 1 /\
   stands_for (Utils.add 9007199254740992 1) 9007199254740992 /\
   ~ stands_for (Utils.add 9007199254740992 1) (9007199254740992 + 1)) /\
  (stands_for 134217729 134217729 /\
   stands_for (Utils.multiply Utils.new_Calculator 134217729 134217729)
              18014398777917440 /\
   ~ stands_for (Utils.multiply Utils.new_Calculator 134217729 134217729)
                (134217729 * 134217729)).
Proof.
  unfold stands_for. repeat split; try (vm_compute; reflexivity).
  all: vm_compute; discriminate.
Qed.

(** ** A fetch in any context *)

Lemma preserves_ret {A} (I : State -> Prop) (a : A) (Q : A -> Prop) :
  Q a -> preserves I (ret a) Q.
Proof. intros Ha s Hs. split; assumption. Qed.

Lemma preserves_bind {A B} (I : State -> Prop) (m : M A) (k : A -> M B)
      (Q : A -> Prop) (R : B -> Prop) :
  preserves I m Q ->
  (forall a, Q a -> preserves I (k a) R) ->
  preserves I (bind m k) R.
Proof.
  intros Hm Hk s Hs. unfold bind.
  destruct (Hm s Hs) as [H1 H2]. destruct (m s) as [a s1].
  exact (Hk a H2 s1 H1).
Qed.

Lemma preserves_weaken {A} (I : State -> Prop) (m : M A) (Q Q' : A -> Prop) :
  preserves I m Q -> (forall a, Q a -> Q' a) -> preserves I m Q'.
Proof. intros Hm HQ s Hs. destruct (Hm s Hs). split; auto. Qed.

Lemma preserves_modify (I : State -> Prop) (f : State -> State) :
  (forall s, I s -> I (f s)) -> preserves I (modify f) (fun _ => True).
Proof. intros Hf s Hs. split; [apply Hf; exact Hs | exact Logic.I]. Qed.

Lemma preserves_gets {A} (I : State -> Prop) (f : State -> A) (Q : A -> Prop) :
  (forall s, I s -> Q (f s)) -> preserves I (gets f) Q.
Proof. intros Hf s Hs. split; [exact Hs | apply Hf; exact Hs]. Qed.

Lemma Forall_insert_timer (P : Timer -> Prop) t q :
  P t -> Forall P q -> Forall P (insert_timer t q).
Proof.
  intros Ht. induction 1 as [|t' q' Ht' Hq' IH]; cbn.
  - constructor; [exact Ht | constructor].
  - destruct (due t <? due t')%Z; repeat constructor; assumption.
Qed.

Section Owned.

Variable sc : Scenario.
Variable p : pid.
Variable uid : Z.

Local Abbreviation Inv := (owned sc p uid).

Lemma owned_lt s : Inv s -> p < length (promises s).
Proof.
  intros [Hst _ _ _ _]. unfold own_state in Hst.
  destruct (promises s !! p) eqn:E; [|contradiction].
  eapply lookup_lt_Some; exact E.
Qed.

Lemma console_log_owned args : preserves Inv (console_log args) (fun _ => True).
Proof. apply preserves_modify. intros s []. constructor; assumption. Qed.

Lemma console_error_owned args : preserves Inv (console_error args) (fun _ => True).
Proof. apply preserves_modify. intros s []. constructor; assumption. Qed.

Lemma new_promise_owned : preserves Inv new_promise (fun q => q <> p).
Proof.
  intros s Hs. pose proof (owned_lt s Hs) as Hlt. destruct Hs as [Hst Hp Hj Ha Ht].
  split; [constructor; cbn; try assumption | cbn; lia].
  - rewrite lookup_app_l by exact Hlt. exact Hst.
  - apply Forall_app_2; [exact Hp | repeat constructor].
Qed.

Lemma enqueue_owned js :
  Forall (fun j => foreign p (fst j)) js ->
  preserves Inv (enqueue js) (fun _ => True).
Proof.
  intros Hjs. apply preserves_modify. intros s [].
  constructor; cbn; try assumption. apply Forall_app_2; assumption.
Qed.

Lemma settle_owned q o :
  (q = p -> o = expected sc uid) ->
  preserves Inv (settle q o) (fun _ => True).
Proof.
  intros Hq s Hs. unfold settle.
  destruct (promises s !! q) as [[rs|o']|] eqn:E; [|split; auto..].
  assert (Hrs : Forall (foreign p) rs).
  { destruct Hs as [_ Hp _ _ _]. exact (Forall_lookup_1 _ _ _ _ Hp E). }
  apply enqueue_owned.
  - apply Forall_map. eapply Forall_impl; [exact Hrs|]. intros k Hk. exact Hk.
  - destruct Hs as [Hst Hp Hj Ha Ht]. constructor; cbn; try assumption.
    + destruct (decide (q = p)) as [->|Hne].
      * rewrite list_lookup_insert_eq by (eapply lookup_lt_Some; exact E).
        cbn. auto.
      * rewrite list_lookup_insert_ne by exact Hne. exact Hst.
    + apply Forall_insert; [exact Hp | exact Logic.I].
Qed.

Lemma subscribe_owned q k :
  foreign p k -> preserves Inv (subscribe q k) (fun _ => True).
Proof.
  intros Hk s Hs. unfold subscribe.
  destruct (promises s !! q) as [[rs|o']|] eqn:E; [| |split; auto].
  - assert (Hrs : Forall (foreign p) rs).
    { destruct Hs as [_ Hp _ _ _]. exact (Forall_lookup_1 _ _ _ _ Hp E). }
    destruct Hs as [Hst Hp Hj Ha Ht].
    split; [constructor; cbn; try assumption | exact Logic.I].
    + destruct (decide (q = p)) as [->|Hne].
      * rewrite list_lookup_insert_eq by (eapply lookup_lt_Some; exact E).
        exact Logic.I.
      * rewrite list_lookup_insert_ne by exact Hne. exact Hst.
    + apply Forall_insert; [exact Hp|]. cbn.
      apply Forall_app_2; [exact Hrs | repeat constructor; exact Hk].
  - apply enqueue_owned; [repeat constructor; exact Hk | exact Hs].
Qed.

Lemma setTimeout_owned cb delay :
  own_callback p uid cb -> preserves Inv (setTimeout cb delay) (fun _ => True).
Proof.
  intros Hcb. unfold setTimeout.
  eapply preserves_bind; [apply preserves_gets with (Q := fun _ => True); auto|].
  intros now _. apply preserves_modify. intros s [].
  constructor; cbn; try assumption.
  apply Forall_insert_timer; assumption.
Qed.

Lemma new_aggregate_owned result :
  result <> p -> preserves Inv (new_aggregate result) (fun _ => True).
Proof.
  intros Hne s [Hst Hp Hj Ha Ht].
  split; [constructor; cbn; try assumption | exact Logic.I].
  apply Forall_app_2; [exact Ha | repeat constructor; exact Hne].
Qed.

Lemma update_aggregate_owned a f :
  (forall g, agg_promise (f g) = agg_promise g) ->
  preserves Inv (update_aggregate a f) (fun _ => True).
Proof.
  intros Hf. apply preserves_modify. intros s [Hst Hp Hj Ha Ht].
  constructor; cbn; try assumption.
  destruct (aggregates s !! a) as [g|] eqn:E; [|exact Ha].
  apply Forall_insert; [exact Ha|]. cbv beta. rewrite Hf.
  exact (Forall_lookup_1 _ _ _ _ Ha E).
Qed.

Lemma lookup_aggregate_owned a :
  preserves Inv (gets (fun s => aggregates s !! a))
            (fun g => match g with
                      | Some g => agg_promise g <> p
                      | None => True
                      end).
Proof.
  apply preserves_gets. intros s [_ _ _ Ha _].
  destruct (aggregates s !! a) as [g|] eqn:E; [|exact Logic.I].
  exact (Forall_lookup_1 _ _ _ _ Ha E).
Qed.

Lemma element_done_owned a : preserves Inv (element_done a) (fun _ => True).
Proof.
  unfold element_done.
  eapply preserves_bind; [apply update_aggregate_owned; reflexivity|].
  intros _ _.
  eapply preserves_bind; [apply lookup_aggregate_owned|].
  intros [g|] Hg; [|apply preserves_ret; exact Logic.I].
  destruct (agg_remaining g); [|apply preserves_ret; exact Logic.I].
  apply settle_owned. intros Heq. contradiction.
Qed.

Lemma all_subscribe_owned a index ps :
  preserves Inv (all_subscribe a index ps) (fun _ => True).
Proof.
  revert index. induction ps as [|q ps IH]; intros index; cbn [all_subscribe].
  - apply preserves_ret. exact Logic.I.
  - eapply preserves_bind; [apply update_aggregate_owned; reflexivity|].
    intros _ _.
    eapply preserves_bind; [apply subscribe_owned; discriminate|].
    intros _ _. apply IH.
Qed.

Lemma Promise_all_owned ps : preserves Inv (Promise_all ps) (fun q => q <> p).
Proof.
  unfold Promise_all.
  eapply preserves_bind; [apply new_promise_owned|]. intros result Hresult.
  eapply preserves_bind; [apply new_aggregate_owned; exact Hresult|].
  intros a _.
  eapply preserves_bind; [apply all_subscribe_owned|]. intros _ _.
  eapply preserves_bind; [apply element_done_owned|]. intros _ _.
  apply preserves_ret. exact Hresult.
Qed.

Lemma all_element_owned a index o :
  preserves Inv (all_element a index o) (fun _ => True).
Proof.
  destruct o as [x|e]; cbn [all_element].
  - eapply preserves_bind; [apply update_aggregate_owned; reflexivity|].
    intros _ _. apply element_done_owned.
  - eapply preserves_bind; [apply lookup_aggregate_owned|].
    intros [g|] Hg; [|apply preserves_ret; exact Logic.I].
    apply settle_owned. intros Heq. contradiction.
Qed.

(** The timer callback of a fetch settles its promise as [expected] says. *)
Lemma fetch_timeout_owned q u :
  own_callback p uid (CB_fetch q u) ->
  preserves Inv (fetch_timeout sc q u) (fun _ => True).
Proof.
  intros Hcb. unfold fetch_timeout.
  destruct (success_of sc u) eqn:E; apply settle_owned; intros Hq;
    rewrite <- (Hcb Hq); unfold expected; rewrite E; reflexivity.
Qed.

Lemma fetchUserData_owned u : preserves Inv (fetchUserData sc u) (fun q => q <> p).
Proof.
  unfold fetchUserData.
  eapply preserves_bind; [apply new_promise_owned|]. intros q Hq.
  eapply preserves_bind; [apply console_log_owned|]. intros _ _.
  eapply preserves_bind; [apply setTimeout_owned; intros ->; contradiction|].
  intros _ _. apply preserves_ret. exact Hq.
Qed.

Lemma showUserDetails_resume_owned self o :
  self <> p -> preserves Inv (showUserDetails_resume self o) (fun _ => True).
Proof.
  intros Hself. unfold showUserDetails_resume.
  eapply preserves_bind with (Q := fun _ => True).
  - destruct o as [user|error].
    + eapply preserves_bind; [apply console_log_owned|]. intros _ _.
      apply console_log_owned.
    + apply console_error_owned.
  - intros _ _. apply settle_owned. intros ->. contradiction.
Qed.

Lemma runParallelTasks_owned : preserves Inv (runParallelTasks sc) (fun q => q <> p).
Proof.
  unfold runParallelTasks.
  eapply preserves_bind; [apply new_promise_owned|]. intros self Hself.
  eapply preserves_bind; [apply console_log_owned|]. intros _ _.
  eapply preserves_bind;
    [apply preserves_gets with (Q := fun _ => True); auto|]. intros startTime _.
  eapply preserves_bind; [apply fetchUserData_owned|]. intros p1 _.
  eapply preserves_bind; [apply fetchUserData_owned|]. intros p2 _.
  eapply preserves_bind; [apply fetchUserData_owned|]. intros p3 _.
  eapply preserves_bind; [apply Promise_all_owned|]. intros all _.
  eapply preserves_bind; [apply subscribe_owned|].
  - unfold foreign. cbn. congruence.
  - intros _ _. apply preserves_ret. exact Hself.
Qed.

Lemma runParallelTasks_resume_owned self startTime o :
  self <> p ->
  preserves Inv (runParallelTasks_resume self startTime o) (fun _ => True).
Proof.
  intros Hself. unfold runParallelTasks_resume.
  eapply preserves_bind with (Q := fun _ => True).
  - destruct o as [results|error].
    + eapply preserves_bind; [apply console_log_owned|]. intros _ _.
      eapply preserves_bind;
        [apply preserves_gets with (Q := fun _ => True); auto|]. intros now _.
      apply console_log_owned.
    + apply console_error_owned.
  - intros _ _. apply settle_owned. intros ->. contradiction.
Qed.

Lemma main_after_show_owned self o :
  self <> p -> preserves Inv (main_after_show sc self o) (fun _ => True).
Proof.
  intros Hself. destruct o as [v|e]; cbn [main_after_show].
  - eapply preserves_bind; [apply runParallelTasks_owned|]. intros q _.
    apply subscribe_owned. unfold foreign. cbn. congruence.
  - apply settle_owned. intros ->. contradiction.
Qed.

Lemma main_after_run_owned self o :
  self <> p -> preserves Inv (main_after_run self o) (fun _ => True).
Proof.
  intros Hself. destruct o as [v|e]; cbn [main_after_run];
    apply settle_owned; intros ->; contradiction.
Qed.

Lemma run_cont_owned k o :
  foreign p k -> preserves Inv (run_cont sc k o) (fun _ => True).
Proof.
  unfold foreign. destruct k as [self|self startTime|self|self|a index];
    cbn; intros Hk.
  - apply showUserDetails_resume_owned. congruence.
  - apply runParallelTasks_resume_owned. congruence.
  - apply main_after_show_owned. congruence.
  - apply main_after_run_owned. congruence.
  - apply all_element_owned.
Qed.

Lemma run_callback_owned cb :
  own_callback p uid cb -> preserves Inv (run_callback sc cb) (fun _ => True).
Proof. destruct cb as [q u]. apply fetch_timeout_owned. Qed.

(** Every turn of the event loop keeps the promise owned. *)
Lemma step_owned s s' : Inv s -> step sc s = Some s' -> Inv s'.
Proof.
  intros Hs. unfold step.
  destruct (jobs s) as [|[k o] rest] eqn:Ej.
  - destruct (timers s) as [|t rest] eqn:Et; [discriminate|].
    intros [= <-]. apply run_callback_owned.
    + destruct Hs as [_ _ _ _ Ht]. rewrite Et in Ht.
      apply Forall_cons in Ht. apply Ht.
    + destruct Hs as [Hst Hp Hj Ha Ht]. constructor; cbn; try assumption.
      rewrite Et in Ht. apply Forall_cons in Ht. apply Ht.
  - intros [= <-]. apply run_cont_owned.
    + destruct Hs as [_ _ Hj _ _]. rewrite Ej in Hj.
      apply Forall_cons in Hj. apply Hj.
    + destruct Hs as [Hst Hp Hj Ha Ht]. constructor; cbn; try assumption.
      rewrite Ej in Hj. apply Forall_cons in Hj. apply Hj.
Qed.

Lemma turns_owned n s s' : Inv s -> turns sc n s = Some s' -> Inv s'.
Proof.
  revert s. induction n as [|n IH]; intros s Hs; cbn.
  - intros [= <-]. exact Hs.
  - destruct (step sc s) as [s1|] eqn:E; [|discriminate].
    apply IH. eapply step_owned; eassumption.
Qed.

(** A settled owned promise is settled as [expected] says. *)
Lemma owned_outcome s o :
  Inv s -> outcome_of p s = Some o -> o = expected sc uid.
Proof.
  intros [Hst _ _ _ _]. unfold outcome_of, own_state in *.
  destruct (promises s !! p) as [[rs|o']|]; try discriminate.
  intros [= <-]. exact Hst.
Qed.

End Owned.

(** A call of [fetchUserData] in a state where the next promise number is
    unused returns a promise that the call owns. *)
Lemma fetchUserData_fresh sc uid s :
  fresh s ->
  owned sc (fst (fetchUserData sc uid s)) uid (snd (fetchUserData sc uid s)).
Proof.
  intros (Hp & Hj & Ha & Ht). constructor; cbn.
  - rewrite list_lookup_middle by reflexivity. exact Logic.I.
  - apply Forall_app_2; [exact Hp | repeat constructor].
  - exact Hj.
  - exact Ha.
  - apply Forall_insert_timer; [cbn; auto|].
    eapply Forall_impl; [exact Ht|].
    intros [d [q u]] Hq. cbn in *. intros ->. contradiction.
Qed.

(** Whatever the context of the call and however far the event loop has
    run, the promise of a fetch is pending or settled as [expected] says. *)
Lemma fetchUserData_settles_as_expected sc uid s n s' o :
  fresh s ->
  turns sc n (snd (fetchUserData sc uid s)) = Some s' ->
  outcome_of (fst (fetchUserData sc uid s)) s' = Some o ->
  o = expected sc uid.
Proof.
  intros Hfresh Hturns Hout.
  eapply owned_outcome; [|exact Hout].
  eapply turns_owned; [|exact Hturns].
  apply fetchUserData_fresh. exact Hfresh.
Qed.

(** ** Well-formed states are all the program meets *)

Lemma triple_ret {A} (P : State -> Prop) (a : A) (Q : A -> State -> Prop) :
  (forall s, P s -> Q a s) -> triple P (ret a) Q.
Proof. intros H s Hs. apply H. exact Hs. Qed.

Lemma triple_bind {A B} (P : State -> Prop) (m : M A) (k : A -> M B)
      (Q : A -> State -> Prop) (R : B -> State -> Prop) :
  triple P m Q -> (forall a, triple (Q a) (k a) R) -> triple P (bind m k) R.
Proof.
  intros Hm Hk s Hs. unfold bind. specialize (Hm s Hs).
  destruct (m s) as [a s1]. exact (Hk a s1 Hm).
Qed.

Lemma triple_consequence {A} (P P' : State -> Prop) (m : M A)
      (Q Q' : A -> State -> Prop) :
  triple P m Q -> (forall s, P' s -> P s) -> (forall a s, Q a s -> Q' a s) ->
  triple P' m Q'.
Proof. intros Hm HP HQ s Hs. apply HQ, Hm, HP, Hs. Qed.

Lemma cont_below_mono L L' k : L <= L' -> cont_below L k -> cont_below L' k.
Proof. unfold cont_below. destruct (cont_self k); [lia | auto]. Qed.

Lemma state_below_mono L L' st : L <= L' -> state_below L st -> state_below L' st.
Proof.
  intros HL. destruct st as [rs|o]; cbn; [|auto].
  intros Hrs. eapply Forall_impl; [exact Hrs|].
  intros k. apply cont_below_mono. exact HL.
Qed.

Lemma bounded_by_mono L L' s : L <= L' -> bounded_by L s -> bounded_by L' s.
Proof.
  intros HL [Hp Hj Ha Ht]. constructor.
  - eapply Forall_impl; [exact Hp|]. intros st. apply state_below_mono. exact HL.
  - eapply Forall_impl; [exact Hj|]. intros j. apply cont_below_mono. exact HL.
  - eapply Forall_impl; [exact Ha|]. cbv beta. intros g. lia.
  - eapply Forall_impl; [exact Ht|]. intros [d [q u]]. cbn. lia.
Qed.

Lemma known_weaken X X' s : (forall q, In q X' -> In q X) -> known X s -> known X' s.
Proof.
  intros Hsub [Hb HX]. split; [exact Hb|].
  rewrite List.Forall_forall in *. auto.
Qed.

Lemma known_In X s q : known X s -> In q X -> q < length (promises s).
Proof. intros [_ HX]. rewrite List.Forall_forall in HX. apply HX. Qed.

(** A bounded state offers a fresh promise number. *)
Lemma bounded_fresh s : bounded s -> fresh s.
Proof.
  intros [Hp Hj Ha Ht]. unfold fresh. repeat split.
  - eapply Forall_impl; [exact Hp|]. intros [rs|o]; cbn; [|auto].
    intros Hrs. eapply Forall_impl; [exact Hrs|].
    intros k. unfold cont_below, foreign.
    destruct (cont_self k); [intros Hlt [= ->]; lia | discriminate].
  - eapply Forall_impl; [exact Hj|]. intros [k o]. cbn. unfold cont_below, foreign.
    destruct (cont_self k); [intros Hlt [= ->]; lia | discriminate].
  - eapply Forall_impl; [exact Ha|]. cbv beta. intros g. lia.
  - eapply Forall_impl; [exact Ht|]. intros [d [q u]]. cbn. lia.
Qed.

Section Known.

Variable sc : Scenario.

Lemma console_log_known X args :
  triple (known X) (console_log args) (fun _ => known X).
Proof. intros s [[] HX]. split; [constructor|]; assumption. Qed.

Lemma console_error_known X args :
  triple (known X) (console_error args) (fun _ => known X).
Proof. intros s [[] HX]. split; [constructor|]; assumption. Qed.

Lemma gets_known {A} X (f : State -> A) : triple (known X) (gets f) (fun _ => known X).
Proof. intros s Hs. exact Hs. Qed.

Lemma new_promise_known X : triple (known X) new_promise (fun q => known (q :: X)).
Proof.
  intros s [Hb HX]. unfold known, bounded. cbn. rewrite length_app. cbn.
  split.
  - apply (bounded_by_mono (length (promises s))); [lia|].
    destruct Hb as [Hp Hj Ha Ht]. constructor; cbn; try assumption.
    apply Forall_app_2; [exact Hp | repeat constructor].
  - constructor; [lia|]. eapply Forall_impl; [exact HX|]. cbv beta. intros q. lia.
Qed.

Lemma enqueue_known X js :
  triple (fun s => known X s /\ Forall (fun j => cont_below (length (promises s)) (fst j)) js)
         (enqueue js) (fun _ => known X).
Proof.
  intros s [[[Hp Hj Ha Ht] HX] Hjs]. split; [constructor|]; cbn; try assumption.
  apply Forall_app_2; assumption.
Qed.

Lemma settle_known X q o : triple (known X) (settle q o) (fun _ => known X).
Proof.
  intros s Hs. unfold settle.
  destruct (promises s !! q) as [[rs|o']|] eqn:E; [|exact Hs..].
  apply enqueue_known. destruct Hs as [[Hp Hj Ha Ht] HX].
  unfold known, bounded. cbn. rewrite length_insert.
  split; [split; [constructor; cbn; try assumption | exact HX]|].
  - apply Forall_insert; [exact Hp | exact Logic.I].
  - apply Forall_map. exact (Forall_lookup_1 _ _ _ _ Hp E).
Qed.

Lemma subscribe_known X q k :
  (forall self, cont_self k = Some self -> In self X) ->
  triple (known X) (subscribe q k) (fun _ => known X).
Proof.
  intros Hk s Hs.
  assert (Hbelow : cont_below (length (promises s)) k).
  { unfold cont_below. destruct (cont_self k) as [self|]; [|exact Logic.I].
    eapply known_In; [exact Hs | apply Hk; reflexivity]. }
  unfold subscribe.
  destruct (promises s !! q) as [[rs|o']|] eqn:E; [| |exact Hs].
  - destruct Hs as [[Hp Hj Ha Ht] HX].
    unfold known, bounded. cbn. rewrite length_insert.
    split; [constructor; cbn; try assumption | exact HX].
    apply Forall_insert; [exact Hp|]. cbn.
    apply Forall_app_2; [exact (Forall_lookup_1 _ _ _ _ Hp E)|].
    repeat constructor. exact Hbelow.
  - apply enqueue_known. split; [exact Hs|]. repeat constructor. exact Hbelow.
Qed.

Lemma setTimeout_known X q u delay :
  In q X -> triple (known X) (setTimeout (CB_fetch q u) delay) (fun _ => known X).
Proof.
  intros Hq. unfold setTimeout.
  eapply triple_bind; [apply gets_known|]. intros now s Hs.
  pose proof (known_In _ _ _ Hs Hq) as Hlt.
  destruct Hs as [[Hp Hj Ha Ht] HX].
  split; [constructor|]; cbn; try assumption.
  apply Forall_insert_timer; [exact Hlt | exact Ht].
Qed.

Lemma new_aggregate_known X result :
  In result X -> triple (known X) (new_aggregate result) (fun _ => known X).
Proof.
  intros Hr s Hs. pose proof (known_In _ _ _ Hs Hr) as Hlt.
  destruct Hs as [[Hp Hj Ha Ht] HX].
  split; [constructor|]; cbn; try assumption.
  apply Forall_app_2; [exact Ha | repeat constructor; exact Hlt].
Qed.

Lemma update_aggregate_known X a f :
  (forall g, agg_promise (f g) = agg_promise g) ->
  triple (known X) (update_aggregate a f) (fun _ => known X).
Proof.
  intros Hf s [[Hp Hj Ha Ht] HX].
  split; [constructor|]; cbn; try assumption.
  destruct (aggregates s !! a) as [g|] eqn:E; [|exact Ha].
  apply Forall_insert; [exact Ha|]. cbv beta. rewrite Hf.
  exact (Forall_lookup_1 _ _ _ _ Ha E).
Qed.

Lemma element_done_known X a : triple (known X) (element_done a) (fun _ => known X).
Proof.
  unfold element_done.
  eapply triple_bind; [apply update_aggregate_known; reflexivity|]. intros ?.
  eapply triple_bind; [apply gets_known|].
  intros [g|]; [|apply triple_ret; auto].
  destruct (agg_remaining g); [apply settle_known | apply triple_ret; auto].
Qed.

Lemma all_subscribe_known X a index ps :
  triple (known X) (all_subscribe a index ps) (fun _ => known X).
Proof.
  revert index. induction ps as [|q ps IH]; intros index; cbn [all_subscribe].
  - apply triple_ret. auto.
  - eapply triple_bind; [apply update_aggregate_known; reflexivity|]. intros ?.
    eapply triple_bind; [apply subscribe_known; discriminate|]. intros ?.
    apply IH.
Qed.

Lemma Promise_all_known X ps :
  triple (known X) (Promise_all ps) (fun q => known (q :: X)).
Proof.
  unfold Promise_all.
  eapply triple_bind; [apply new_promise_known|]. intros result.
  eapply triple_bind; [apply new_aggregate_known; left; reflexivity|]. intros a.
  eapply triple_bind; [apply all_subscribe_known|]. intros ?.
  eapply triple_bind; [apply element_done_known|]. intros ?.
  apply triple_ret. auto.
Qed.

Lemma all_element_known X a index o :
  triple (known X) (all_element a index o) (fun _ => known X).
Proof.
  destruct o as [x|e]; cbn [all_element].
  - eapply triple_bind; [apply update_aggregate_known; reflexivity|]. intros ?.
    apply element_done_known.
  - eapply triple_bind; [apply gets_known|].
    intros [g|]; [apply settle_known | apply triple_ret; auto].
Qed.

Lemma fetch_timeout_known X q u :
  triple (known X) (fetch_timeout sc q u) (fun _ => known X).
Proof. unfold fetch_timeout. destruct (success_of sc u); apply settle_known. Qed.

Lemma fetchUserData_known X u :
  triple (known X) (fetchUserData sc u) (fun q => known (q :: X)).
Proof.
  unfold fetchUserData.
  eapply triple_bind; [apply new_promise_known|]. intros q.
  eapply triple_bind; [apply console_log_known|]. intros ?.
  eapply triple_bind; [apply setTimeout_known; left; reflexivity|]. intros ?.
  apply triple_ret. auto.
Qed.

Lemma showUserDetails_known X :
  triple (known X) (showUserDetails sc) (fun q => known (q :: X)).
Proof.
  unfold showUserDetails.
  eapply triple_bind; [apply new_promise_known|]. intros self.
  eapply triple_bind; [apply console_log_known|]. intros ?.
  eapply triple_bind; [apply fetchUserData_known|]. intros q.
  eapply triple_bind;
    [apply subscribe_known; intros ? [= <-]; right; left; reflexivity|].
  intros ?. apply triple_ret. intros s. apply known_weaken.
  intros r Hr. right. exact Hr.
Qed.

Lemma showUserDetails_resume_known X self o :
  triple (known X) (showUserDetails_resume self o) (fun _ => known X).
Proof.
  unfold showUserDetails_resume.
  eapply triple_bind with (Q := fun _ => known X).
  - destruct o as [user|error].
    + eapply triple_bind; [apply console_log_known|]. intros ?.
      apply console_log_known.
    + apply console_error_known.
  - intros ?. apply settle_known.
Qed.

Lemma runParallelTasks_known X :
  triple (known X) (runParallelTasks sc) (fun q => known (q :: X)).
Proof.
  unfold runParallelTasks.
  eapply triple_bind; [apply new_promise_known|]. intros self.
  eapply triple_bind; [apply console_log_known|]. intros ?.
  eapply triple_bind; [apply gets_known|]. intros startTime.
  eapply triple_bind; [apply fetchUserData_known|]. intros p1.
  eapply triple_bind; [apply fetchUserData_known|]. intros p2.
  eapply triple_bind; [apply fetchUserData_known|]. intros p3.
  eapply triple_bind; [apply Promise_all_known|]. intros all.
  eapply triple_bind;
    [apply subscribe_known; intros ? [= <-]; do 4 right; left; reflexivity|].
  intros ?. apply triple_ret. intros s. apply known_weaken.
  intros r Hr. do 4 right. exact Hr.
Qed.

Lemma runParallelTasks_resume_known X self startTime o :
  triple (known X) (runParallelTasks_resume self startTime o) (fun _ => known X).
Proof.
  unfold runParallelTasks_resume.
  eapply triple_bind with (Q := fun _ => known X).
  - destruct o as [results|error].
    + eapply triple_bind; [apply console_log_known|]. intros ?.
      eapply triple_bind; [apply gets_known|]. intros now.
      apply console_log_known.
    + apply console_error_known.
  - intros ?. apply settle_known.
Qed.

Lemma main_known X : triple (known X) (main sc) (fun q => known (q :: X)).
Proof.
  unfold main.
  eapply triple_bind; [apply new_promise_known|]. intros self.
  eapply triple_bind; [apply showUserDetails_known|]. intros q.
  eapply triple_bind;
    [apply subscribe_known; intros ? [= <-]; right; left; reflexivity|].
  intros ?. apply triple_ret. intros s. apply known_weaken.
  intros r Hr. right. exact Hr.
Qed.

Lemma main_after_show_known X self o :
  In self X -> triple (known X) (main_after_show sc self o) (fun _ => known X).
Proof.
  intros Hself. destruct o as [v|e]; cbn [main_after_show]; [|apply settle_known].
  eapply triple_bind; [apply runParallelTasks_known|]. intros q.
  eapply triple_consequence;
    [apply (subscribe_known (q :: X)); intros ? [= <-]; right; exact Hself
    | auto |].
  intros ? s. apply known_weaken. intros r Hr. right. exact Hr.
Qed.

Lemma main_after_run_known X self o :
  triple (known X) (main_after_run self o) (fun _ => known X).
Proof. destruct o as [v|e]; cbn [main_after_run]; apply settle_known. Qed.

Lemma run_cont_bounded k o s :
  bounded s -> cont_below (length (promises s)) k ->
  bounded (snd (run_cont sc k o s)).
Proof.
  intros Hb Hk.
  destruct k as [self|self startTime|self|self|a index]; cbn [run_cont].
  - apply (showUserDetails_resume_known [] self o s). split; [exact Hb | constructor].
  - apply (runParallelTasks_resume_known [] self startTime o s).
    split; [exact Hb | constructor].
  - apply (main_after_show_known [self] self o); [left; reflexivity|].
    split; [exact Hb | repeat constructor; exact Hk].
  - apply (main_after_run_known [] self o s). split; [exact Hb | constructor].
  - apply (all_element_known [] a index o s). split; [exact Hb | constructor].
Qed.

(** Every turn of the event loop keeps the state bounded. *)
Lemma step_bounded s s' : bounded s -> step sc s = Some s' -> bounded s'.
Proof.
  intros Hb. unfold step.
  destruct (jobs s) as [|[k o] rest] eqn:Ej.
  - destruct (timers s) as [|[d [q u]] rest] eqn:Et; [discriminate|].
    intros [= <-]. cbn [callback run_callback].
    apply (fetch_timeout_known [] q u). split; [|constructor].
    destruct Hb as [Hp Hj Ha Ht]. constructor; cbn; try assumption.
    rewrite Et in Ht. apply Forall_cons in Ht. apply Ht.
  - intros [= <-]. apply run_cont_bounded.
    + destruct Hb as [Hp Hj Ha Ht]. constructor; cbn; try assumption.
      rewrite Ej in Hj. apply Forall_cons in Hj. apply Hj.
    + destruct Hb as [_ Hj _ _]. rewrite Ej in Hj.
      apply Forall_cons in Hj. apply Hj.
Qed.

Lemma turns_bounded n s s' : bounded s -> turns sc n s = Some s' -> bounded s'.
Proof.
  revert s. induction n as [|n IH]; intros s Hs; cbn.
  - intros [= <-]. exact Hs.
  - destruct (step sc s) as [s1|] eqn:E; [|discriminate].
    apply IH. eapply step_bounded; eassumption.
Qed.

End Known.

Lemma bounded_initial : bounded initial.
Proof. repeat constructor. Qed.

(** Every state that a run of [main] passes through between turns is
    bounded. *)
Lemma main_bounded sc n s :
  turns sc n (snd (main sc initial)) = Some s -> bounded s.
Proof.
  apply turns_bounded.
  apply (main_known sc [] initial). split; [exact bounded_initial | constructor].
Qed.

(** ** Determinism of a fetch *)

(** A pure fact of the precondition can be used on its own. *)
Lemma triple_pure {A} (phi : Prop) (P : State -> Prop) (m : M A)
      (Q : A -> State -> Prop) :
  (phi -> triple P m Q) -> triple (fun s => phi /\ P s) m Q.
Proof. intros H s [Hphi Hs]. exact (H Hphi s Hs). Qed.

(** What the code keeps, it keeps next to what it establishes. *)
Lemma triple_frame {A} (P I : State -> Prop) (m : M A)
      (Q : A -> State -> Prop) (R : A -> Prop) :
  triple P m Q -> preserves I m R ->
  triple (fun s => P s /\ I s) m (fun a s' => (R a /\ Q a s') /\ I s').
Proof.
  intros Hm Hi s [HP HI]. destruct (Hi s HI) as [H1 H2].
  split; [split; [exact H2 | exact (Hm s HP)] | exact H1].
Qed.

Lemma console_log_allocated L X args :
  triple (allocated L X) (console_log args) (fun _ => allocated L X).
Proof.
  intros s [Hk Hl]. split; [exact (console_log_known X args s Hk) | exact Hl].
Qed.

Lemma gets_allocated {A} L X (f : State -> A) :
  triple (allocated L X) (gets f) (fun _ => allocated L X).
Proof. intros s Hs. exact Hs. Qed.

Lemma new_promise_allocated L X :
  triple (allocated L X) new_promise
         (fun q s' => q = L /\ allocated (S L) (q :: X) s').
Proof.
  intros s [Hk Hl]. split; [exact Hl|].
  split; [exact (new_promise_known X s Hk)|].
  cbn. rewrite length_app. cbn. lia.
Qed.

Lemma fetchUserData_length sc uid s :
  length (promises (snd (fetchUserData sc uid s))) = S (length (promises s)).
Proof. cbn. rewrite length_app. cbn. lia. Qed.

(** A call of [fetchUserData] returns the next promise, and the call owns
    it. *)
Lemma fetchUserData_allocated sc L X uid :
  triple (allocated L X) (fetchUserData sc uid)
         (fun q s' => q = L /\ allocated (S L) (q :: X) s' /\ owned sc q uid s').
Proof.
  intros s [Hk Hl]. split; [exact Hl|]. split.
  - split; [exact (fetchUserData_known sc X uid s Hk)|].
    rewrite fetchUserData_length. lia.
  - apply fetchUserData_fresh. apply bounded_fresh. apply Hk.
Qed.

Lemma preserves_triple {A} (I : State -> Prop) (m : M A) (R : A -> Prop) :
  preserves I m R -> triple I m (fun a s' => R a /\ I s').
Proof. intros H s Hs. destruct (H s Hs). split; assumption. Qed.

Lemma preserves_conj {A} (I J : State -> Prop) (m : M A) (R R' : A -> Prop) :
  preserves I m R -> preserves J m R' ->
  preserves (fun s => I s /\ J s) m (fun a => R a /\ R' a).
Proof.
  intros HI HJ s [Hi Hj]. destruct (HI s Hi), (HJ s Hj). repeat split; assumption.
Qed.

(** The call of line 45: the promise that [showUserDetails] awaits is owned
    by a fetch of 1 from the end of the call on. *)
Lemma showUserDetails_allocated sc L X :
  triple (allocated L X) (showUserDetails sc)
         (fun q s' => q = L /\ owned sc (1 + L) 1 s').
Proof.
  unfold showUserDetails.
  eapply triple_bind; [apply new_promise_allocated|]. intros self.
  apply triple_pure. intros ->.
  eapply triple_bind; [apply console_log_allocated|]. intros ?.
  eapply triple_bind; [apply fetchUserData_allocated|]. intros p.
  apply triple_pure. intros ->.
  eapply triple_bind.
  - eapply triple_consequence;
      [ apply preserves_triple, (subscribe_owned sc (S L) 1 (S L) (K_showUserDetails L));
        unfold foreign; cbn; intros [= H]; lia
      | intros s [_ Ho]; exact Ho
      | intros ? s [_ Ho]; exact Ho ].
  - intros ?. apply triple_ret. intros s Ho. split; [reflexivity | exact Ho].
Qed.

(** The calls of lines 64 to 66: the three promises that [runParallelTasks]
    hands to [Promise.all] are owned by fetches of 1, 2 and 3 from the end of
    the call on. *)
Lemma runParallelTasks_allocated sc L X :
  triple (allocated L X) (runParallelTasks sc)
         (fun q s' => q = L /\ owned sc (1 + L) 1 s' /\
                      owned sc (2 + L) 2 s' /\ owned sc (3 + L) 3 s').
Proof.
  unfold runParallelTasks.
  eapply triple_bind; [apply new_promise_allocated|]. intros self.
  apply triple_pure. intros ->.
  eapply triple_bind; [apply console_log_allocated|]. intros ?.
  eapply triple_bind; [apply gets_allocated|]. intros startTime.
  eapply triple_bind; [apply fetchUserData_allocated|]. intros p1.
  apply triple_pure. intros ->.
  eapply triple_bind.
  { apply triple_frame;
      [apply fetchUserData_allocated | apply (fetchUserData_owned sc (S L) 1 2)]. }
  intros p2.
  eapply triple_consequence with
    (P := fun s => p2 = S (S L) /\
                   (allocated (S (S (S L))) (p2 :: S L :: L :: X) s /\
                    (owned sc p2 2 s /\ owned sc (S L) 1 s)));
    [| intros s [[_ (-> & Ha & H2)] H1];
       split; [reflexivity|]; split; [exact Ha|]; split; assumption
     | intros ? s H; exact H ].
  apply triple_pure. intros ->.
  eapply triple_bind.
  { apply triple_frame; [apply fetchUserData_allocated|].
    apply preserves_conj;
      [apply (fetchUserData_owned sc (S (S L)) 2 3)
      |apply (fetchUserData_owned sc (S L) 1 3)]. }
  intros p3.
  set (Inv := fun s => owned sc (1 + L) 1 s /\ owned sc (2 + L) 2 s /\
                       owned sc (3 + L) 3 s).
  assert (Hall : forall ps, preserves Inv (Promise_all ps) (fun _ => True)).
  { intros ps. eapply preserves_weaken.
    - apply preserves_conj; [apply Promise_all_owned|].
      apply preserves_conj; apply Promise_all_owned.
    - auto. }
  assert (Hsub : forall q t, preserves Inv (subscribe q (K_runParallelTasks L t))
                               (fun _ => True)).
  { intros q t. eapply preserves_weaken.
    - apply preserves_conj; [|apply preserves_conj].
      all: apply subscribe_owned; unfold foreign; cbn; intros [= H]; lia.
    - auto. }
  eapply triple_consequence with (P := Inv) (Q := fun q s' => q = L /\ Inv s');
    [| intros s [[_ (-> & _ & H3)] [H2 H1]]; split; [|split]; assumption
     | intros ? s H; exact H ].
  eapply triple_bind; [apply preserves_triple, Hall|]. intros all.
  eapply triple_bind.
  { eapply triple_consequence;
      [apply preserves_triple, Hsub | intros s [_ H]; exact H | intros ? s H; exact H]. }
  intros ?. apply triple_ret. intros s [_ H]. split; [reflexivity | exact H].
Qed.

(** The same calls as [main] makes them: the fetch of [showUserDetails] is
    owned from the start of the program on. *)
Lemma main_allocated sc L X :
  triple (allocated L X) (main sc) (fun q s' => owned sc (2 + L) 1 s').
Proof.
  unfold main.
  eapply triple_bind; [apply new_promise_allocated|]. intros self.
  apply triple_pure. intros ->.
  eapply triple_bind; [apply showUserDetails_allocated|]. intros p.
  apply triple_pure. intros ->.
  eapply triple_bind.
  - apply preserves_triple, (subscribe_owned sc (2 + L) 1 (S L) (K_main_after_show L)).
    unfold foreign. cbn. intros [= H]. lia.
  - intros ?. apply triple_ret. intros s [_ H]. exact H.
Qed.

Lemma main_after_show_allocated sc L X self v :
  self < L ->
  triple (allocated L X) (main_after_show sc self (Fulfilled v))
         (fun _ s' => owned sc (1 + L) 1 s' /\ owned sc (2 + L) 2 s' /\
                      owned sc (3 + L) 3 s').
Proof.
  intros Hself. unfold main_after_show.
  eapply triple_bind; [apply runParallelTasks_allocated|]. intros p.
  apply triple_pure. intros ->.
  eapply triple_consequence with
    (P := fun s => owned sc (1 + L) 1 s /\ owned sc (2 + L) 2 s /\
                   owned sc (3 + L) 3 s);
    [ apply preserves_triple with (R := fun _ => True /\ True /\ True);
      apply preserves_conj; [|apply preserves_conj];
      apply subscribe_owned; unfold foreign; cbn; intros [= H]; lia
    | intros s H; exact H
    | intros ? s [_ H]; exact H ].
Qed.

(** In states: the promise of each call in the source is owned from the end
    of the call on, wherever in a run the call is made. *)
Lemma bounded_allocated s : bounded s -> allocated (length (promises s)) [] s.
Proof. intros Hb. split; [split; [exact Hb | constructor] | reflexivity]. Qed.

Lemma fetchUserData_call_owned sc uid s :
  bounded s ->
  owned sc (length (promises s)) uid (snd (fetchUserData sc uid s)).
Proof. intros Hb. exact (fetchUserData_fresh sc uid s (bounded_fresh s Hb)). Qed.

Lemma showUserDetails_fetch_owned sc s :
  bounded s ->
  owned sc (1 + length (promises s)) 1 (snd (showUserDetails sc s)).
Proof.
  intros Hb. exact (proj2 (showUserDetails_allocated sc _ [] s (bounded_allocated s Hb))).
Qed.

Lemma runParallelTasks_fetches_owned sc s :
  bounded s ->
  owned sc (1 + length (promises s)) 1 (snd (runParallelTasks sc s)) /\
  owned sc (2 + length (promises s)) 2 (snd (runParallelTasks sc s)) /\
  owned sc (3 + length (promises s)) 3 (snd (runParallelTasks sc s)).
Proof.
  intros Hb. exact (proj2 (runParallelTasks_allocated sc _ [] s (bounded_allocated s Hb))).
Qed.

Lemma main_fetch_owned sc s :
  bounded s ->
  owned sc (2 + length (promises s)) 1 (snd (main sc s)).
Proof.
  intros Hb. exact (main_allocated sc _ [] s (bounded_allocated s Hb)).
Qed.

(** The three fetches of [runParallelTasks] are owned from the end of the
    turn on in which [main] goes on after its first [await]. *)
Lemma step_main_after_show_owned sc self v rest s s' :
  bounded s ->
  jobs s = (K_main_after_show self, Fulfilled v) :: rest ->
  step sc s = Some s' ->
  owned sc (1 + length (promises s)) 1 s' /\
  owned sc (2 + length (promises s)) 2 s' /\
  owned sc (3 + length (promises s)) 3 s'.
Proof.
  intros Hb Hj. unfold step. rewrite Hj.
  remember (K_main_after_show self) as k eqn:Ek. intros [= <-]. subst k.
  cbn [run_cont].
  assert (Hself : self < length (promises s)).
  { destruct Hb as [_ Hjobs _ _]. rewrite Hj in Hjobs.
    apply Forall_cons in Hjobs. apply Hjobs. }
  assert (Hb0 : bounded (set_jobs (fun _ => rest) s)).
  { destruct Hb as [Hp Hjobs Ha Ht]. constructor; cbn; try assumption.
    rewrite Hj in Hjobs. apply Forall_cons in Hjobs. apply Hjobs. }
  exact (main_after_show_allocated sc (length (promises s)) [] self v Hself
           _ (bounded_allocated _ Hb0)).
Qed.

(** C9: two calls of [fetchUserData] with the same identifier, made anywhere
    in a run, have the same outcome whenever both are completed: the same
    branch, the same record or the same error, the one that [expected] gives
    for the identifier.  A completed call is a promise that a fetch of the
    identifier owns and that is settled; the two may sit in one state or in
    two, and be looked at after any numbers of turns.  The promise of every
    call in the source is owned from the end of the call on
    ([fetchUserData_call_owned], [showUserDetails_fetch_owned],
    [runParallelTasks_fetches_owned], [main_fetch_owned],
    [step_main_after_show_owned]), in every bounded state, and the states
    of a run are bounded ([step_bounded], [main_bounded]). *)
Theorem fetchUserData_deterministic (sc : Scenario) (uid : Z)
    (p1 p2 : pid) (s1 s2 : State) (n1 n2 : nat) (e1 e2 : State)
    (o1 o2 : Outcome) :
  owned sc p1 uid s1 -> owned sc p2 uid s2 ->
  turns sc n1 s1 = Some e1 ->
  turns sc n2 s2 = Some e2 ->
  outcome_of p1 e1 = Some o1 ->
  outcome_of p2 e2 = Some o2 ->
  o1 = o2 /\ o1 = expected sc uid.
Proof.
  intros H1 H2 T1 T2 O1 O2.
  rewrite (owned_outcome sc p1 uid e1 o1 (turns_owned sc p1 uid n1 s1 e1 H1 T1) O1).
  rewrite (owned_outcome sc p2 uid e2 o2 (turns_owned sc p2 uid n2 s2 e2 H2 T2) O2).
  split; reflexivity.
Qed.

(** In the run of [main] as written, the two fetches of 1, the one of
    [showUserDetails] and the one of [runParallelTasks], end the same. *)
Example main_fetches_of_1_agree :
  exists p s',
    completes as_written (main as_written) p s' /\
    outcome_of 2 s' = Some (Fulfilled (user_of 1)) /\
    outcome_of 4 s' = Some (Fulfilled (user_of 1)).
Proof.
  exists 0. eexists. split; [exists 11; vm_compute; reflexivity|].
  split; vm_compute; reflexivity.
Qed.

(** The two calls with identifier 1 of the program as written: the one of
    [showUserDetails], owned from the start, and the one of
    [runParallelTasks], owned from the third turn on. *)
Lemma first_fetch_owned : owned as_written 2 1 (snd (main as_written initial)).
Proof. exact (main_fetch_owned as_written initial bounded_initial). Qed.

Lemma second_fetch_owned : owned as_written 4 1 main_after_three_turns.
Proof.
  assert (Hb : bounded main_after_two_turns).
  { apply (main_bounded as_written 2). vm_compute. reflexivity. }
  refine (proj1 (step_main_after_show_owned as_written 0 VUndefined []
                   main_after_two_turns main_after_three_turns Hb _ _));
    vm_compute; reflexivity.
Qed.

Lemma fetchUserData_deterministic_witness :
  exists e1 e2,
    turns as_written 1 (snd (main as_written initial)) = Some e1 /\
    turns as_written 8 main_after_three_turns = Some e2 /\
    outcome_of 2 e1 = Some (Fulfilled (user_of 1)) /\
    outcome_of 4 e2 = Some (Fulfilled (user_of 1)) /\
    Fulfilled (user_of 1) = Fulfilled (user_of 1) /\
    Fulfilled (user_of 1) = expected as_written 1.
Proof.
  eexists. eexists.
  split; [vm_compute; reflexivity|]. split; [vm_compute; reflexivity|].
  split; [vm_compute; reflexivity|]. split; [vm_compute; reflexivity|].
  refine (fetchUserData_deterministic as_written 1 2 4
            (snd (main as_written initial)) main_after_three_turns 1 8 _ _ _ _
            first_fetch_owned second_fetch_owned _ _ _ _);
    vm_compute; reflexivity.
Defined.

(** * Further properties *)

(** ** Runs in every scenario *)

Lemma turns_turn sc n s :
  turns sc (S n) s =
  match step sc s with
  | Some s' => turns sc n s'
  | None => None
  end.
Proof. reflexivity. Qed.

(** Where a run of [runParallelTasks] comes to rest. *)
Lemma runParallelTasks_rest sc :
  exists s',
    exec sc 7 (runParallelTasks sc) = Some (0, s') /\
    outcome_of (fetch_promise 1) s' = Some (expected sc 1) /\
    outcome_of (fetch_promise 2) s' = Some (expected sc 2) /\
    outcome_of (fetch_promise 3) s' = Some (expected sc 3).
Proof.
  unfold exec, expected, fetch_promise.
  destruct sc as [succ del]. cbn [success_of delay_of].
  destruct (succ 1%Z) eqn:E1, (succ 2%Z) eqn:E2, (succ 3%Z) eqn:E3.
  all: sync.
  all: repeat (match goal with
       | |- context [if (?a <? ?b)%Z then _ else _] =>
           destruct (Z.ltb_spec a b)
       end; sync).
  all: do 7 turn; last_turn.
  all: eexists; repeat (split; [reflexivity|]); reflexivity.
Qed.

(** X2: a failure does not cancel anything.  In every scenario
    [runParallelTasks] runs to the end with each of its three fetches
    settled by its own branch, the record of its identifier or the error,
    also when another fetch has failed and [Promise.all] was rejected
    early. *)
Theorem runParallelTasks_no_cancellation (sc : Scenario) :
  exists s',
    completes sc (runParallelTasks sc) 0 s' /\
    outcome_of (fetch_promise 1) s' =
      Some (if success_of sc 1
            then Fulfilled (VUser {| id := 1; name := "Bruce Wayne" |})
            else Rejected (VError (Error "用户不存在"))) /\
    outcome_of (fetch_promise 2) s' =
      Some (if success_of sc 2
            then Fulfilled (VUser {| id := 2; name := "Bruce Wayne" |})
            else Rejected (VError (Error "用户不存在"))) /\
    outcome_of (fetch_promise 3) s' =
      Some (if success_of sc 3
            then Fulfilled (VUser {| id := 3; name := "Bruce Wayne" |})
            else Rejected (VError (Error "用户不存在"))).
Proof.
  destruct (runParallelTasks_rest sc) as (s' & Hrun & H).
  exists s'. split; [exists 7; exact Hrun | exact H].
Qed.

(** X4: [runParallelTasks] recovers from every failure, as
    [showUserDetails] does.  In every scenario its own promise ends
    fulfilled, also when [Promise.all] was rejected, so nothing is thrown at
    the caller who awaits it. *)
Theorem runParallelTasks_recovers (sc : Scenario) :
  exists s',
    completes sc (runParallelTasks sc) 0 s' /\
    outcome_of 0 s' = Some (Fulfilled VUndefined) /\
    outcome_of all_promise s' =
      Some (if all_succeed sc
            then Fulfilled (VArray [user_of 1; user_of 2; user_of 3])
            else Rejected not_found).
Proof.
  destruct (runParallelTasks_run sc) as (s' & Hrun & Hself & Hall & _).
  exists s'. split; [exists 7; exact Hrun | split; assumption].
Qed.

Lemma showUserDetails_run sc :
  exists s',
    exec sc 2 (showUserDetails sc) = Some (0, s') /\
    console s' = sequential_console sc.
Proof.
  unfold exec, sequential_console. destruct sc as [succ del].
  cbn [success_of delay_of].
  destruct (succ 1%Z) eqn:E; crunch; rewrite E; crunch;
    eexists; (split; [reflexivity|]); reflexivity.
Qed.

Lemma parallel_lines_run sc :
  exists s', exec sc 7 (runParallelTasks sc) = Some (0, s') /\
             parallel_lines sc (console s').
Proof.
  destruct (runParallelTasks_run sc) as (s' & Hrun & _ & _ & Hcon).
  exists s'. split; [exact Hrun|]. exists (longest_delay sc). exact Hcon.
Qed.

Lemma main_run sc :
  exists s' rest,
    exec sc 11 (main sc) = Some (0, s') /\
    outcome_of 0 s' = Some (Fulfilled VUndefined) /\
    console s' = sequential_console sc ++ rest /\
    parallel_lines sc rest.
Proof.
  unfold exec, sequential_console, parallel_lines, all_succeed.
  destruct sc as [succ del]. cbn [success_of delay_of].
  destruct (succ 1%Z) eqn:E1, (succ 2%Z) eqn:E2, (succ 3%Z) eqn:E3.
  all: sync.
  all: do 3 turn.
  all: repeat (match goal with
       | |- context [if (?a <? ?b)%Z then _ else _] =>
           destruct (Z.ltb_spec a b)
       end; sync).
  all: do 8 turn; last_turn.
  all: eexists; eexists; do 2 (split; [reflexivity|]).
  all: (split; [reflexivity|]).
  all: first [ eexists; reflexivity | exists 0%Z; reflexivity ].
Qed.

(** X1: [main] is [showUserDetails] followed by [runParallelTasks], in every
    scenario.  It runs to the end with its promise fulfilled, whatever
    fails, and its console is the console of [showUserDetails] run alone,
    followed by lines of the form that [runParallelTasks] writes when run
    alone: the same lines letter by letter, up to the number in the line of
    the elapsed time. *)
Theorem main_composes (sc : Scenario) :
  exists s1 s2 s rest,
    completes sc (showUserDetails sc) 0 s1 /\
    completes sc (runParallelTasks sc) 0 s2 /\
    completes sc (main sc) 0 s /\
    outcome_of 0 s = Some (Fulfilled VUndefined) /\
    console s1 =
      [ConsoleLog [VString "--- 任务开始 ---"];
       ConsoleLog [VString "正在请求用户数据 (ID: 1)..."]] ++
      (if success_of sc 1
       then [ConsoleLog [VString "获取成功:"; VString "Bruce Wayne"];
             ConsoleLog [VString "--- 任务结束 ---"]]
       else [ConsoleError [VString "捕获到错误:"; VError (Error "用户不存在")]]) /\
    parallel_lines sc (console s2) /\
    console s = console s1 ++ rest /\
    parallel_lines sc rest.
Proof.
  destruct (showUserDetails_run sc) as (s1 & Hrun1 & Hcon1).
  destruct (parallel_lines_run sc) as (s2 & Hrun2 & Hcon2).
  destruct (main_run sc) as (s & rest & Hrun & Hout & Hcon & Hrest).
  exists s1, s2, s, rest.
  split; [exists 2; exact Hrun1|]. split; [exists 7; exact Hrun2|].
  split; [exists 11; exact Hrun|]. split; [exact Hout|].
  split; [exact Hcon1|]. split; [exact Hcon2|].
  split; [rewrite Hcon, Hcon1; reflexivity | exact Hrest].
Qed.

Ltac peek :=
  lazy -[turns Z.ltb Z.le Z.lt Z.max Z.add Z.sub timer_delay elapsed_text
         request_text].
Ltac a_turn := rewrite turns_turn; peek; use_flags; peek.
Ltac order_timers :=
  repeat (match goal with
          | |- context [if (?a <? ?b)%Z then _ else _] =>
              destruct (Z.ltb_spec a b); try (exfalso; lia)
          end; peek).

(** X3: [runParallelTasks] reports a failure as soon as there is one.  When
    a fetch fails whose timer is due before the timers of the other two,
    then three turns into the run (the timer, the element handler of
    [Promise.all], the rest of [runParallelTasks]) [Promise.all] is rejected
    and the error line is on the console, while the other two fetches are
    still pending: the report does not wait for them. *)
Theorem runParallelTasks_fails_fast (sc : Scenario) (first : Z) :
  In first [1; 2; 3]%Z ->
  success_of sc first = false ->
  (forall other, In other [1; 2; 3]%Z -> other <> first ->
     (timer_delay (delay_of sc first) < timer_delay (delay_of sc other))%Z) ->
  exists s,
    turns sc 3 (snd (runParallelTasks sc initial)) = Some s /\
    console s =
      [ConsoleLog [VString (String "010" "--- 并发任务开始 ---")];
       ConsoleLog [VString "正在请求用户数据 (ID: 1)..."];
       ConsoleLog [VString "正在请求用户数据 (ID: 2)..."];
       ConsoleLog [VString "正在请求用户数据 (ID: 3)..."];
       ConsoleError [VString "其中一个任务失败了:";
                     VError (Error "用户不存在")]] /\
    outcome_of all_promise s = Some (Rejected (VError (Error "用户不存在"))) /\
    forall other, In other [1; 2; 3]%Z -> other <> first ->
      outcome_of (fetch_promise (Z.to_nat other)) s = None.
Proof.
  intros Hin Hfail Hfirst.
  assert (H1 := Hfirst 1%Z). assert (H2 := Hfirst 2%Z). assert (H3 := Hfirst 3%Z).
  clear Hfirst. destruct sc as [succ del]. cbn [success_of delay_of] in *.
  destruct Hin as [<-|[<-|[<-|[]]]].
  - specialize (H2 ltac:(right; left; reflexivity) ltac:(discriminate)).
    specialize (H3 ltac:(right; right; left; reflexivity) ltac:(discriminate)).
    clear H1.
    destruct (succ 2%Z) eqn:E2, (succ 3%Z) eqn:E3.
    all: peek; order_timers.
    all: eexists; split; [do 3 a_turn; reflexivity|].
    all: split; [reflexivity|]; split; [reflexivity|].
    all: intros other [<-|[<-|[<-|[]]]] Hne; try congruence; reflexivity.
  - specialize (H1 ltac:(left; reflexivity) ltac:(discriminate)).
    specialize (H3 ltac:(right; right; left; reflexivity) ltac:(discriminate)).
    clear H2.
    destruct (succ 1%Z) eqn:E1, (succ 3%Z) eqn:E3.
    all: peek; order_timers.
    all: eexists; split; [do 3 a_turn; reflexivity|].
    all: split; [reflexivity|]; split; [reflexivity|].
    all: intros other [<-|[<-|[<-|[]]]] Hne; try congruence; reflexivity.
  - specialize (H1 ltac:(left; reflexivity) ltac:(discriminate)).
    specialize (H2 ltac:(right; left; reflexivity) ltac:(discriminate)).
    clear H3.
    destruct (succ 1%Z) eqn:E1, (succ 2%Z) eqn:E2.
    all: peek; order_timers.
    all: eexists; split; [do 3 a_turn; reflexivity|].
    all: split; [reflexivity|]; split; [reflexivity|].
    all: intros other [<-|[<-|[<-|[]]]] Hne; try congruence; reflexivity.
Qed.

Lemma runParallelTasks_fails_fast_witness :
  exists s,
    turns third_fails_first 3
          (snd (runParallelTasks third_fails_first initial)) = Some s /\
    console s =
      [ConsoleLog [VString (String "010" "--- 并发任务开始 ---")];
       ConsoleLog [VString "正在请求用户数据 (ID: 1)..."];
       ConsoleLog [VString "正在请求用户数据 (ID: 2)..."];
       ConsoleLog [VString "正在请求用户数据 (ID: 3)..."];
       ConsoleError [VString "其中一个任务失败了:";
                     VError (Error "用户不存在")]] /\
    outcome_of all_promise s = Some (Rejected (VError (Error "用户不存在"))) /\
    forall other, In other [1; 2; 3]%Z -> other <> 3%Z ->
      outcome_of (fetch_promise (Z.to_nat other)) s = None.
Proof.
  apply (runParallelTasks_fails_fast third_fails_first 3).
  - right. right. left. reflexivity.
  - reflexivity.
  - intros other [<-|[<-|[<-|[]]]] Hne; [reflexivity | reflexivity | congruence].
Defined.

(** ** What a run never undoes *)

Lemma advances_refl s : advances s s.
Proof.
  constructor; [auto | exists []; symmetry; apply app_nil_r | lia].
Qed.

Lemma advances_trans s1 s2 s3 :
  advances s1 s2 -> advances s2 s3 -> advances s1 s3.
Proof.
  intros [H1 [m1 C1] T1] [H2 [m2 C2] T2]. constructor.
  - auto.
  - exists (m1 ++ m2). rewrite C2, C1. symmetry. apply app_assoc.
  - lia.
Qed.

Lemma steady_ret {A} (a : A) : steady (ret a).
Proof. intros s. apply advances_refl. Qed.

Lemma steady_bind {A B} (m : M A) (k : A -> M B) :
  steady m -> (forall a, steady (k a)) -> steady (bind m k).
Proof.
  intros Hm Hk s. unfold bind. specialize (Hm s).
  destruct (m s) as [a s1]. eapply advances_trans; [exact Hm | apply Hk].
Qed.

Lemma steady_gets {A} (f : State -> A) : steady (gets f).
Proof. intros s. apply advances_refl. Qed.

Lemma steady_console_log args : steady (console_log args).
Proof.
  intros s. constructor; cbn; [auto | eexists; reflexivity | lia].
Qed.

Lemma steady_console_error args : steady (console_error args).
Proof.
  intros s. constructor; cbn; [auto | eexists; reflexivity | lia].
Qed.

(** Allocating a promise leaves the settled ones alone. *)
Lemma outcome_kept_app p o s s' extra :
  promises s' = promises s ++ extra ->
  outcome_of p s = Some o -> outcome_of p s' = Some o.
Proof.
  unfold outcome_of, pid in *. intros ->.
  destruct (promises s !! p) as [st|] eqn:E; [|discriminate].
  rewrite lookup_app_l by (eapply lookup_lt_Some; exact E).
  rewrite E. auto.
Qed.

(** Overwriting a pending promise leaves the settled ones alone. *)
Lemma outcome_kept_insert p o s s' q rs st :
  promises s !! q = Some (Pending rs) ->
  promises s' = <[q := st]> (promises s) ->
  outcome_of p s = Some o -> outcome_of p s' = Some o.
Proof.
  unfold outcome_of, pid in *. intros E ->.
  destruct (decide (q = p)) as [->|Hne].
  - rewrite E. discriminate.
  - rewrite list_lookup_insert_ne by exact Hne. auto.
Qed.

Lemma steady_new_promise : steady new_promise.
Proof.
  intros s. constructor; cbn; [| exists []; symmetry; apply app_nil_r | lia].
  intros p o. apply outcome_kept_app with (extra := [Pending []]). reflexivity.
Qed.

Lemma steady_enqueue js : steady (enqueue js).
Proof.
  intros s. constructor; cbn;
    [auto | exists []; symmetry; apply app_nil_r | lia].
Qed.

(** Settling touches a pending promise only. *)
Lemma steady_settle q o : steady (settle q o).
Proof.
  intros s. unfold settle.
  destruct (promises s !! q) as [[rs|o']|] eqn:E; try apply advances_refl.
  constructor; cbn; [| exists []; symmetry; apply app_nil_r | lia].
  intros p o0. eapply outcome_kept_insert; [exact E | reflexivity].
Qed.

Lemma steady_subscribe q k : steady (subscribe q k).
Proof.
  intros s. unfold subscribe.
  destruct (promises s !! q) as [[rs|o']|] eqn:E;
    [| apply steady_enqueue | apply advances_refl].
  constructor; cbn; [| exists []; symmetry; apply app_nil_r | lia].
  intros p o0. eapply outcome_kept_insert; [exact E | reflexivity].
Qed.

Lemma steady_setTimeout cb delay : steady (setTimeout cb delay).
Proof.
  intros s. constructor; cbn;
    [auto | exists []; symmetry; apply app_nil_r | lia].
Qed.

Lemma steady_new_aggregate result : steady (new_aggregate result).
Proof.
  intros s. constructor; cbn;
    [auto | exists []; symmetry; apply app_nil_r | lia].
Qed.

Lemma steady_update_aggregate a f : steady (update_aggregate a f).
Proof.
  intros s. constructor; cbn;
    [auto | exists []; symmetry; apply app_nil_r | lia].
Qed.

Create HintDb steady.
#[local] Hint Resolve steady_ret steady_gets steady_console_log
  steady_console_error steady_new_promise steady_settle steady_subscribe
  steady_setTimeout steady_new_aggregate steady_update_aggregate : steady.

(** Code put together from steady parts with [bind] and [match]. *)
Ltac steady :=
  repeat first
    [ solve [auto with steady]
    | apply steady_bind; [|intros ?]
    | match goal with
      | |- steady (match ?x with _ => _ end) => destruct x
      end ].

Lemma steady_element_done a : steady (element_done a).
Proof. unfold element_done, resolve. steady. Qed.

Lemma steady_all_subscribe a index ps : steady (all_subscribe a index ps).
Proof.
  revert index. induction ps as [|q ps IH]; intros index; cbn [all_subscribe].
  - steady.
  - apply steady_bind; [steady|]. intros ?.
    apply steady_bind; [steady|]. intros ?. apply IH.
Qed.

#[local] Hint Resolve steady_element_done steady_all_subscribe : steady.

Lemma steady_Promise_all ps : steady (Promise_all ps).
Proof. unfold Promise_all. steady. Qed.

Lemma steady_all_element a index o : steady (all_element a index o).
Proof. unfold all_element, reject. steady. Qed.

Lemma steady_fetch_timeout sc q u : steady (fetch_timeout sc q u).
Proof. unfold fetch_timeout, resolve, reject. steady. Qed.

Lemma steady_fetchUserData sc u : steady (fetchUserData sc u).
Proof. unfold fetchUserData. steady. Qed.

#[local] Hint Resolve steady_Promise_all steady_all_element
  steady_fetch_timeout steady_fetchUserData : steady.

Lemma steady_showUserDetails sc : steady (showUserDetails sc).
Proof. unfold showUserDetails. steady. Qed.

Lemma steady_showUserDetails_resume self o :
  steady (showUserDetails_resume self o).
Proof. unfold showUserDetails_resume, resolve. steady. Qed.

Lemma steady_runParallelTasks sc : steady (runParallelTasks sc).
Proof. unfold runParallelTasks, Date_now. steady. Qed.

Lemma steady_runParallelTasks_resume self startTime o :
  steady (runParallelTasks_resume self startTime o).
Proof. unfold runParallelTasks_resume, Date_now, resolve. steady. Qed.

#[local] Hint Resolve steady_showUserDetails steady_showUserDetails_resume
  steady_runParallelTasks steady_runParallelTasks_resume : steady.

Lemma steady_main sc : steady (main sc).
Proof. unfold main. steady. Qed.

Lemma steady_main_after_show sc self o : steady (main_after_show sc self o).
Proof. unfold main_after_show, reject. steady. Qed.

Lemma steady_main_after_run self o : steady (main_after_run self o).
Proof. unfold main_after_run, resolve, reject. steady. Qed.

#[local] Hint Resolve steady_main_after_show steady_main_after_run : steady.

Lemma steady_run_cont sc k o : steady (run_cont sc k o).
Proof. destruct k; cbn [run_cont]; auto with steady. Qed.

Lemma steady_run_callback sc cb : steady (run_callback sc cb).
Proof. destruct cb; cbn [run_callback]; auto with steady. Qed.

(** Taking a job or a timer off its queue and moving the clock on to the
    timer's due time advance the state, and so does the code then run. *)
Lemma step_advances sc s s' : step sc s = Some s' -> advances s s'.
Proof.
  unfold step. destruct (jobs s) as [|[k o] rest].
  - destruct (timers s) as [|t rest]; [discriminate|].
    intros [= <-]. eapply advances_trans; [|apply steady_run_callback].
    constructor; cbn; [auto | exists []; symmetry; apply app_nil_r | lia].
  - intros [= <-]. eapply advances_trans; [|apply steady_run_cont].
    constructor; cbn; [auto | exists []; symmetry; apply app_nil_r | lia].
Qed.

Lemma turns_advances sc n s s' : turns sc n s = Some s' -> advances s s'.
Proof.
  revert s. induction n as [|n IH]; intros s; cbn.
  - intros [= <-]. apply advances_refl.
  - destruct (step sc s) as [s1|] eqn:E; [|discriminate].
    intros H. eapply advances_trans; [eapply step_advances; exact E | auto].
Qed.

(** X5: a settled promise is settled for good.  Whatever the state, once a
    promise has an outcome it has the same outcome after any number of turns
    of the event loop. *)
Theorem settled_is_final (sc : Scenario) (p : pid) (o : Outcome)
    (n : nat) (s s' : State) :
  outcome_of p s = Some o ->
  turns sc n s = Some s' ->
  outcome_of p s' = Some o.
Proof.
  intros Hout Hturns. exact (adv_settled _ _ (turns_advances _ _ _ _ Hturns) p o Hout).
Qed.

Lemma settled_is_final_witness :
  exists s',
    outcome_of 2 main_after_one_turn = Some (Fulfilled (user_of 1)) /\
    turns as_written 5 main_after_one_turn = Some s' /\
    outcome_of 2 s' = Some (Fulfilled (user_of 1)).
Proof.
  eexists. split; [vm_compute; reflexivity|].
  split; [vm_compute; reflexivity|].
  apply (settled_is_final as_written 2 _ 5 main_after_one_turn);
    vm_compute; reflexivity.
Defined.

(** ** More of the module demo *)

Lemma SF64mul_comm (x y : spec_float) : SF64mul x y = SF64mul y x.
Proof.
  unfold SF64mul, SFmul.
  destruct x as [sx|sx| |sx mx ex], y as [sy|sy| |sy my ey];
    try reflexivity; try (rewrite (xorb_comm sx sy); reflexivity).
  rewrite (xorb_comm sx sy), (Pos.mul_comm mx my), (Z.add_comm ex ey).
  reflexivity.
Qed.

(** X7: [multiply] is commutative on all [number]s, infinities and NaN
    included. *)
Theorem multiply_comm (calc : Utils.Calculator) (a b : float) :
  Utils.multiply calc a b = Utils.multiply calc b a.
Proof.
  unfold Utils.multiply.
  rewrite <- (SF2Prim_Prim2SF (a * b)), <- (SF2Prim_Prim2SF (b * a)).
  rewrite !mul_spec. f_equal. apply SF64mul_comm.
Qed.

(** X8: adding zero changes nothing, for every [number] but negative zero
    (whose sum with zero is positive zero). *)
Theorem add_zero (a : float) :
  a <> (-0)%float -> Utils.add a 0 = a.
Proof.
  intros Ha. unfold Utils.add.
  rewrite <- (SF2Prim_Prim2SF (a + 0)), add_spec.
  transitivity (SF2Prim (Prim2SF a)); [|apply SF2Prim_Prim2SF]. f_equal.
  change (Prim2SF 0) with (S754_zero false).
  destruct (Prim2SF a) as [sa|sa| |sa ma ea] eqn:E; try reflexivity.
  destruct sa; [|reflexivity].
  exfalso. apply Ha. rewrite <- (SF2Prim_Prim2SF a), E. reflexivity.
Qed.

Lemma add_zero_witness :
  Utils.add 1.5 0 = 1.5%float /\ Utils.add (-0) 0 <> (-0)%float.
Proof.
  split.
  - apply (add_zero 1.5). intros H. apply (f_equal Prim2SF) in H.
    vm_compute in H. discriminate.
  - intros H. apply (f_equal Prim2SF) in H. vm_compute in H. discriminate.
Defined.

(** X9: dividing by zero does not fail and never gives a finite [number]:
    [op(x, 0)] is NaN when [x] is a zero or NaN, and otherwise the infinity
    of the sign of [x]. *)
Theorem op_by_zero (x : float) :
  Prim2SF (ModulesDemo.op x 0) =
    match Prim2SF x with
    | S754_nan | S754_zero _ => S754_nan
    | S754_infinity sign | S754_finite sign _ _ => S754_infinity sign
    end /\
  exact_value (ModulesDemo.op x 0) = None.
Proof.
  assert (H : Prim2SF (ModulesDemo.op x 0) =
    match Prim2SF x with
    | S754_nan | S754_zero _ => S754_nan
    | S754_infinity sign | S754_finite sign _ _ => S754_infinity sign
    end).
  { unfold ModulesDemo.op. rewrite div_spec.
    change (Prim2SF 0) with (S754_zero false).
    destruct (Prim2SF x) as [sx|sx| |sx mx ex]; cbn;
      rewrite ?xorb_false_r; reflexivity. }
  split; [exact H|]. unfold exact_value. rewrite H.
  destruct (Prim2SF x); reflexivity.
Qed.
